(** * LogicalTextSplitter (app.py): a shallow embedding and its properties

    The boundary-aware text splitter of app.py: [_split_by_paragraphs],
    [_split_into_sentences], [_chunk_paragraph] and [split_text].

    Python strings are modelled as lists of characters; a character is a
    code point of the Latin-1 range, held in an [ascii].  The base sentence
    tokenizer ([nltk.sent_tokenize]) is an external library: it is a
    parameter of the class section. *)

From Stdlib Require Import Ascii String List Bool Arith ZArith Lia.
From Stdlib Require DecimalString DecimalNat Sorted.
Import ListNotations.

Local Open Scope list_scope.

(** ** Python [str] primitives *)
Module PyStr.

Definition str := list ascii.

(** A string literal. *)
Definition lit (x : string) : str := list_ascii_of_string x.

(** [len(s)] as a Python integer. *)
Definition len {A} (s : list A) : Z := Z.of_nat (length s).

(** Truth value of a Python sequence: non-empty. *)
Definition truthy {A} (s : list A) : bool :=
  match s with [] => false | _ :: _ => true end.

(** Unicode white space ([str.isspace], [str.strip], [str.split] and the
    regular expression class [\s]) on code points below 256. *)
Definition isspace (c : ascii) : bool :=
  let n := nat_of_ascii c in
  ((9 <=? n) && (n <=? 13)) || ((28 <=? n) && (n <=? 32))
  || (n =? 133) || (n =? 160).

(** [c.islower()] for one character: the Unicode Lowercase property on
    code points below 256. *)
Definition islower (c : ascii) : bool :=
  let n := nat_of_ascii c in
  ((97 <=? n) && (n <=? 122)) || (n =? 170) || (n =? 181) || (n =? 186)
  || ((223 <=? n) && (n <=? 246)) || ((248 <=? n) && (n <=? 255)).

Definition isupper (c : ascii) : bool :=
  let n := nat_of_ascii c in
  ((65 <=? n) && (n <=? 90)) || ((192 <=? n) && (n <=? 214))
  || ((216 <=? n) && (n <=? 222)).

Fixpoint lstrip (s : str) : str :=
  match s with
  | [] => []
  | c :: r => if isspace c then lstrip r else s
  end.

Definition rstrip (s : str) : str := rev (lstrip (rev s)).

Definition strip (s : str) : str := lstrip (rstrip s).

(** [s.split()]: the maximal runs of non-space characters; [cur] is the
    run being read, last character first. *)
Fixpoint split_from (cur : str) (s : str) : list str :=
  match s with
  | [] => if truthy cur then [rev cur] else []
  | c :: r =>
      if isspace c
      then (if truthy cur then rev cur :: split_from [] r else split_from [] r)
      else split_from (c :: cur) r
  end.

Definition split (s : str) : list str := split_from [] s.

Fixpoint str_eqb (a b : str) : bool :=
  match a, b with
  | [], [] => true
  | x :: a', y :: b' => Ascii.eqb x y && str_eqb a' b'
  | _, _ => false
  end.

Fixpoint startswith (s p : str) {struct p} : bool :=
  match p, s with
  | [], _ => true
  | y :: p', x :: s' => Ascii.eqb x y && startswith s' p'
  | _ :: _, [] => false
  end.

Definition endswith (s x : str) : bool := startswith (rev s) (rev x).

(** [sep.join(l)]. *)
Fixpoint join (sep : str) (l : list str) : str :=
  match l with
  | [] => []
  | [x] => x
  | x :: r => x ++ sep ++ join sep r
  end.

End PyStr.
Import PyStr.

(** ** The two regular expressions of [_split_by_paragraphs] *)
Module Regex.

Definition is_newline (c : ascii) : bool := Ascii.eqb c "010"%char.

Fixpoint span_space (s : str) : str :=
  match s with
  | [] => []
  | c :: r => if isspace c then c :: span_space r else []
  end.

(** Position just after the last newline of [s]; [0] when it has none. *)
Fixpoint last_newline_end (s : str) : nat :=
  match s with
  | [] => 0
  | c :: r =>
      match last_newline_end r with
      | 0 => if is_newline c then 1 else 0
      | S k => S (S k)
      end
  end.

(** Length of the match of [\n\s*\n] at the head of [s], if there is one:
    the greedy [\s*] gives back characters until a newline follows, so the
    match ends at the last newline of the white space run after the first
    newline. *)
Definition match_blank_line (s : str) : option nat :=
  match s with
  | c :: r =>
      if is_newline c
      then match last_newline_end (span_space r) with
           | 0 => None
           | S k => Some (S (S k))
           end
      else None
  | [] => None
  end.

(** [re.split(r'\n\s*\n', s)]: [skip] characters of a match are still to
    be dropped, [cur] is the piece being read, last character first. *)
Fixpoint re_split_from (skip : nat) (cur : str) (s : str) : list str :=
  match s with
  | [] => [rev cur]
  | c :: r =>
      match skip with
      | S k => re_split_from k cur r
      | 0 =>
          match match_blank_line s with
          | Some n => rev cur :: re_split_from (pred n) [] r
          | None => re_split_from 0 (c :: cur) r
          end
      end
  end.

Definition re_split_blank_lines (s : str) : list str := re_split_from 0 [] s.

(** [re.sub(r'\s+', ' ', s)]: [in_run] says that the previous character
    was white space, already replaced. *)
Fixpoint re_sub_from (in_run : bool) (s : str) : str :=
  match s with
  | [] => []
  | c :: r =>
      if isspace c
      then (if in_run then re_sub_from true r else " "%char :: re_sub_from true r)
      else c :: re_sub_from false r
  end.

Definition re_sub_spaces (s : str) : str := re_sub_from false s.

End Regex.
Import Regex.

(** ** Exceptions *)
Inductive exn : Type := IndexError | OutOfFuel.

Inductive result (A : Type) : Type :=
| Ok (a : A)
| Raise (e : exn).
Arguments Ok {A} a.
Arguments Raise {A} e.

Definition bind {A B} (m : result A) (k : A -> result B) : result B :=
  match m with
  | Ok a => k a
  | Raise e => Raise e
  end.

Notation "x <- m ;; k" := (bind m (fun x => k))
  (at level 61, m at next level, right associativity).

(** [l[i]] for a non-negative index. *)
Definition getitem {A} (l : list A) (i : nat) : result A :=
  match nth_error l i with
  | Some x => Ok x
  | None => Raise IndexError
  end.

(** ** class LogicalTextSplitter *)
Section LogicalTextSplitter.

(** [nltk.sent_tokenize], and the two attributes set by [__init__]. *)
Variable sent_tokenize : str -> list str.
Variable chunk_size : Z.
Variable chunk_overlap : Z.

Definition abbreviations : list str :=
  map lit
    ["Dr."; "Mr."; "Mrs."; "Ms."; "Prof."; "vs."; "etc.";
     "i.e."; "e.g."; "cf."; "al."; "Inc."; "Ltd."; "Corp.";
     "St."; "Ave."; "Blvd."; "Dept."; "Fig."; "Vol."; "No."]%string.

(** Body of the loop of [_split_by_paragraphs]. *)
Definition clean_paragraph (cleaned_paragraphs : list str) (para : str)
  : list str :=
  let para := strip para in
  if truthy para && (20 <? len para)%Z
  then cleaned_paragraphs ++ [re_sub_spaces para]
  else cleaned_paragraphs.

Definition _split_by_paragraphs (text : str) : list str :=
  let paragraphs := re_split_blank_lines (strip text) in
  fold_left clean_paragraph paragraphs [].

(** The test of the abbreviation branch on the current sentence. *)
Definition ends_with_abbreviation (current_sentence : str) : bool :=
  let words := split current_sentence in
  truthy words
  && existsb (fun abbrev => endswith (rstrip current_sentence) abbrev)
       abbreviations.

(** One iteration of the [while] loop of [_split_into_sentences], up to
    the append: the sentence to append and the index reached. *)
Definition merge_at (sentences : list str) (i : nat) : result (str * nat) :=
  current_sentence <- getitem sentences i ;;
  if (Z.of_nat i <? len sentences - 1)%Z
  then
    if ends_with_abbreviation current_sentence
    then
      next <- getitem sentences (i + 1) ;;
      let next_sentence := strip next in
      lower <- (if truthy next_sentence
                then c <- getitem next_sentence 0 ;; Ok (islower c)
                else Ok false) ;;
      if (lower : bool)
      then Ok (current_sentence ++ lit " " ++ next_sentence, i + 1)
      else Ok (current_sentence, i)
    else Ok (current_sentence, i)
  else Ok (current_sentence, i).

(** The [while i < len(sentences)] loop; every iteration uses one unit of
    [fuel]. *)
Fixpoint merge_loop (fuel : nat) (sentences : list str) (i : nat)
    (processed_sentences : list str) : result (list str) :=
  if i <? length sentences then
    match fuel with
    | 0 => Raise OutOfFuel
    | S fuel' =>
        r <- merge_at sentences i ;;
        let '(current_sentence, i) := r in
        merge_loop fuel' sentences (i + 1)
          (processed_sentences ++ [strip current_sentence])
    end
  else Ok processed_sentences.

(** The post-processing of [_split_into_sentences]: everything after the
    call of the base tokenizer.  The loop gets [len(sentences)] units of
    fuel. *)
Definition merge_abbreviations (sentences : list str) : result (list str) :=
  processed_sentences <- merge_loop (length sentences) sentences 0 [] ;;
  Ok (filter (fun s => truthy s) processed_sentences).

Definition _split_into_sentences (text : str) : result (list str) :=
  let sentences := sent_tokenize text in
  merge_abbreviations sentences.

(** The local variables of [_chunk_paragraph] that the [for] loop
    updates. *)
Record chunker : Type := {
  chunks : list str;
  current_chunk : str;
  current_sentences : list str
}.

(** The inner loop [for prev_sentence in reversed(current_sentences)],
    with its [break]; [prevs] is the reversed list. *)
Fixpoint overlap_loop (prevs : list str) (overlap_text : str)
    (overlap_chars : Z) : str :=
  match prevs with
  | [] => overlap_text
  | prev_sentence :: rest =>
      if (overlap_chars + len prev_sentence <=? chunk_overlap)%Z
      then overlap_loop rest
             (if truthy overlap_text
              then prev_sentence ++ lit " " ++ overlap_text
              else prev_sentence)
             (overlap_chars + len prev_sentence)%Z
      else overlap_text
  end.

(** Body of the loop [for sentence in sentences]. *)
Definition chunk_step (st : chunker) (sentence : str) : chunker :=
  let potential_chunk :=
    if truthy (current_chunk st)
    then current_chunk st ++ lit " " ++ sentence
    else sentence in
  if (chunk_size <? len potential_chunk)%Z && truthy (current_chunk st)
  then
    let chunks' := chunks st ++ [strip (current_chunk st)] in
    if (0 <? chunk_overlap)%Z && truthy (current_sentences st)
    then
      let overlap_text := overlap_loop (rev (current_sentences st)) [] 0 in
      {| chunks := chunks';
         current_chunk :=
           if truthy overlap_text
           then overlap_text ++ lit " " ++ sentence
           else sentence;
         current_sentences :=
           if negb (truthy overlap_text)
           then [sentence]
           else split overlap_text ++ [sentence] |}
    else
      {| chunks := chunks';
         current_chunk := sentence;
         current_sentences := [sentence] |}
  else
    {| chunks := chunks st;
       current_chunk := potential_chunk;
       current_sentences := current_sentences st ++ [sentence] |}.

Definition chunker_init : chunker :=
  {| chunks := []; current_chunk := []; current_sentences := [] |}.

(** The statements after the loop. *)
Definition chunk_finish (st : chunker) : list str :=
  if truthy (current_chunk st)
  then chunks st ++ [strip (current_chunk st)]
  else chunks st.

Definition _chunk_paragraph (paragraph : str) : result (list str) :=
  if (len paragraph <=? chunk_size)%Z
  then Ok [paragraph]
  else
    sentences <- _split_into_sentences paragraph ;;
    Ok (chunk_finish (fold_left chunk_step sentences chunker_init)).

(** The loop of [split_text] over the paragraphs. *)
Fixpoint extend_chunks (paragraphs : list str) (all_chunks : list str)
  : result (list str) :=
  match paragraphs with
  | [] => Ok all_chunks
  | paragraph :: rest =>
      paragraph_chunks <- _chunk_paragraph paragraph ;;
      extend_chunks rest (all_chunks ++ paragraph_chunks)
  end.

Definition split_text (text : str) : result (list str) :=
  let paragraphs := _split_by_paragraphs text in
  extend_chunks paragraphs [].

End LogicalTextSplitter.

(** ** class LogicalTextSplitter: the calls of the base tokenizer *)

(** [nltk.sent_tokenize] is a call into a library: it returns a list of
    sentences or raises (nltk raises [LookupError] when its data is not
    installed).  The two methods that reach it are embedded a second time
    with this effect written out: a run gives the value returned or the
    exception raised, and the texts on which the tokenizer was called, in
    order. *)
Section TokenizerCalls.

Variable Exc : Type.
Variable sent_tokenize : str -> Exc + list str.
Variable chunk_size : Z.
Variable chunk_overlap : Z.

(** An exception of the tokenizer, or one of the code of the class. *)
Inductive raised : Type :=
| FromTokenizer (e : Exc)
| FromSplitter (e : exn).

Definition run (A : Type) : Type := (raised + A) * list str.

Definition of_result {A} (r : result A) : raised + A :=
  match r with
  | Ok a => inr a
  | Raise e => inl (FromSplitter e)
  end.

(** [_split_into_sentences]: the call of line 140, then the
    post-processing. *)
Definition _split_into_sentences_run (text : str) : run (list str) :=
  match sent_tokenize text with
  | inl e => (inl (FromTokenizer e), [text])
  | inr sentences => (of_result (merge_abbreviations sentences), [text])
  end.

(** [_chunk_paragraph]: the test of line 165 comes before the call of
    [_split_into_sentences]. *)
Definition _chunk_paragraph_run (paragraph : str) : run (list str) :=
  if (len paragraph <=? chunk_size)%Z
  then (inr [paragraph], [])
  else
    let '(r, calls) := _split_into_sentences_run paragraph in
    match r with
    | inl e => (inl e, calls)
    | inr sentences =>
        (inr (chunk_finish
                (fold_left (chunk_step chunk_size chunk_overlap) sentences
                   chunker_init)),
         calls)
    end.

End TokenizerCalls.

Arguments FromTokenizer {Exc} e.
Arguments FromSplitter {Exc} e.
Arguments of_result {Exc A} r.

(** ** class RAGSystem: storing the chunks of a document *)

(** [str(i)] for a non-negative integer: its decimal digits. *)
Definition str_of_nat (n : nat) : str :=
  lit (DecimalString.NilEmpty.string_of_uint (Nat.to_uint n)).

(** [DocumentResponse], without [processing_time], a reading of the
    clock. *)
Record DocumentResponse : Type := {
  status : str;
  message : str;
  chunks_created : nat
}.

Definition error_response (msg : str) : DocumentResponse :=
  {| status := lit "error"; message := msg; chunks_created := 0 |}.

Section RAGSystem.

(** The collaborators of the class are parameters: the tokenizer, the
    exceptions they raise with their [str(e)], the bytes of a file,
    [extract_text] (PyPDF2 and the UTF-8 decoder), the embeddings of
    OpenAI, and whether an S3 client is configured. *)
Variable sent_tokenize : str -> list str.
Variable Exc : Type.
Variable str_of_exc : Exc -> str.
Variable exc_of_splitter : exn -> Exc.
Variable bytes : Type.
Variable embedding : Type.
Variable extract_text : bytes -> str -> Exc + str.
Variable s3_client : bool.

(** The calls that the methods make to ChromaDB, S3 and OpenAI, with the
    arguments that the code computes.  The fixed arguments (model name,
    bucket, descriptions, the dummy embedding of zeros) are left out. *)
Inductive call : Type :=
| GetOrCreateCollection (name : str)
| AddOriginalText (id text filename : str) (character_count word_count : nat)
| PutObject (key : str) (body : bytes) (original_name : str)
| CreateEmbedding (input : str)
| CollectionAdd (id : str) (e : embedding) (document filename : str)
    (chunk_index total_chunks chunk_size : nat).

(** What the outside world answers: whether a call raises, given the calls
    made before it, and the embedding that OpenAI returns. *)
Variable raises : list call -> call -> option Exc.
Variable created_embedding : list call -> str -> embedding.

(** A call is recorded, and raises or returns. *)
Definition attempt (log : list call) (c : call) : option Exc * list call :=
  (raises log c, log ++ [c]).

(** [store_original_text]: both calls are inside one [try] whose handler
    only logs. *)
Definition store_original_text (text filename : str) (log : list call)
  : list call :=
  let '(failed, log) :=
    attempt log (GetOrCreateCollection (lit "original_texts")) in
  match failed with
  | Some _ => log
  | None =>
      snd (attempt log
             (AddOriginalText (lit "fulltext_" ++ filename) text filename
                (length text) (length (split text))))
  end.

(** [get_embedding]: the request is made on [text[:8191]]; an exception is
    logged and raised again. *)
Definition get_embedding (text : str) (log : list call)
  : (Exc + embedding) * list call :=
  let input := firstn 8191 text in
  let '(failed, log') := attempt log (CreateEmbedding input) in
  match failed with
  | Some e => (inl e, log')
  | None => (inr (created_embedding log input), log')
  end.

(** The identifier of a chunk: [f"{filename}_{i}"]. *)
Definition chunk_id (filename : str) (i : nat) : str :=
  filename ++ lit "_" ++ str_of_nat i.

(** Body of the loop [for i, chunk in enumerate(chunks)] of
    [process_document]: an exception of either call is logged and the loop
    goes on. *)
Definition store_chunk (filename : str) (total_chunks : nat)
    (log : list call) (indexed : nat * str) : list call :=
  let '(i, chunk) := indexed in
  let '(r, log) := get_embedding chunk log in
  match r with
  | inl _ => log
  | inr e =>
      snd (attempt log
             (CollectionAdd (chunk_id filename i) e chunk filename i
                total_chunks (length chunk)))
  end.

Definition enumerate {A} (l : list A) : list (nat * A) :=
  combine (seq 0 (length l)) l.

(** [process_document]: the response and the calls made.  The splitter is
    the one of [__init__]: chunk size 1000, overlap 100. *)
Definition process_document (file_content : bytes) (filename : str)
    (log : list call) : DocumentResponse * list call :=
  match extract_text file_content filename with
  | inl e =>
      (error_response (lit "Processing failed: " ++ str_of_exc e), log)
  | inr text =>
      if negb (truthy (strip text))
      then (error_response (lit "No text content found in document"), log)
      else
        let log := store_original_text text filename log in
        let log :=
          if s3_client
          then snd (attempt log
                      (PutObject (lit "documents/" ++ filename) file_content
                         filename))
          else log in
        match split_text sent_tokenize 1000 100 text with
        | Raise e =>
            (error_response
               (lit "Processing failed: " ++ str_of_exc (exc_of_splitter e)),
             log)
        | Ok chunks =>
            if negb (truthy chunks)
            then (error_response (lit "Failed to create text chunks"), log)
            else
              let log :=
                fold_left (store_chunk filename (length chunks))
                  (enumerate chunks) log in
              ({| status := lit "success";
                  message :=
                    lit "Successfully processed "
                    ++ str_of_nat (length chunks) ++ lit " chunks";
                  chunks_created := length chunks |},
               log)
        end
  end.

(** The inputs of the embedding requests among some calls, and the chunk
    indices of the additions to the collection. *)
Fixpoint embedding_inputs (calls : list call) : list str :=
  match calls with
  | [] => []
  | CreateEmbedding input :: rest => input :: embedding_inputs rest
  | _ :: rest => embedding_inputs rest
  end.

Fixpoint added_indices (calls : list call) : list nat :=
  match calls with
  | [] => []
  | CollectionAdd _ _ _ _ i _ _ :: rest => i :: added_indices rest
  | _ :: rest => added_indices rest
  end.

(** An addition to the collection that describes a chunk of [chunks]. *)
Definition describes (filename : str) (chunks : list str) (c : call) : Prop :=
  match c with
  | CollectionAdd id _ document name i total size =>
      nth_error chunks i = Some document
      /\ id = chunk_id filename i
      /\ name = filename
      /\ total = length chunks
      /\ size = length document
  | _ => True
  end.

Definition is_chunk_call (c : call) : bool :=
  match c with
  | CreateEmbedding _ | CollectionAdd _ _ _ _ _ _ _ => true
  | _ => false
  end.

End RAGSystem.

Arguments GetOrCreateCollection {bytes embedding} name.
Arguments AddOriginalText {bytes embedding} id text filename
  character_count word_count.
Arguments PutObject {bytes embedding} key body original_name.
Arguments CreateEmbedding {bytes embedding} input.
Arguments CollectionAdd {bytes embedding} id e document filename
  chunk_index total_chunks chunk_size.
Arguments attempt {Exc bytes embedding} raises log c.
Arguments store_original_text {Exc bytes embedding} raises text filename log.
Arguments get_embedding {Exc bytes embedding} raises created_embedding
  text log.
Arguments store_chunk {Exc bytes embedding} raises created_embedding
  filename total_chunks log indexed.
Arguments embedding_inputs {bytes embedding} calls.
Arguments added_indices {bytes embedding} calls.
Arguments describes {bytes embedding} filename chunks c.
Arguments is_chunk_call {bytes embedding} c.

(** ** class RAGSystem: connecting to ChromaDB *)

(** The client that [self.chroma_client] holds: the HTTP client made by an
    attempt, or the in-memory client.  A collection is known by the client
    it was obtained from. *)
Inductive client : Type :=
| HttpClient (attempt : nat)
| InMemoryClient.

(** What happens in the [try] block of an attempt: the first of its three
    calls that raises, or none. *)
Inductive outcome : Type :=
| ClientRaises
| HeartbeatRaises
| CollectionRaises
| Connected.

(** What happens in the two statements after the loop. *)
Inductive fallback : Type :=
| MemoryClientRaises
| MemoryCollectionRaises
| MemoryReady.

(** The attributes that [_init_chromadb] sets, and the number of calls of
    [time.sleep(2)] it has made. *)
Record chroma : Type := {
  chroma_client : option client;
  collection : option client;
  sleeps : nat
}.

Section InitChromadb.

(** The outside world: what the server does at each attempt, and what the
    in-memory client does. *)
Variable server : nat -> outcome.
Variable memory : fallback.

(** The handler of an attempt: it waits when another attempt follows. *)
Definition after_failure (st : chroma) (attempt : nat) : chroma :=
  if attempt <? 2
  then {| chroma_client := chroma_client st;
          collection := collection st;
          sleeps := S (sleeps st) |}
  else st.

(** One iteration of [for attempt in range(3)]; [true] when the method
    returns from inside the loop. *)
Definition connect (st : chroma) (attempt : nat) : bool * chroma :=
  let with_client :=
    {| chroma_client := Some (HttpClient attempt);
       collection := collection st;
       sleeps := sleeps st |} in
  match server attempt with
  | ClientRaises => (false, after_failure st attempt)
  | HeartbeatRaises => (false, after_failure with_client attempt)
  | CollectionRaises => (false, after_failure with_client attempt)
  | Connected =>
      (true,
       {| chroma_client := Some (HttpClient attempt);
          collection := Some (HttpClient attempt);
          sleeps := sleeps st |})
  end.

Fixpoint connect_loop (attempts : list nat) (st : chroma) : bool * chroma :=
  match attempts with
  | [] => (false, st)
  | attempt :: rest =>
      let '(returned, st) := connect st attempt in
      if returned then (true, st) else connect_loop rest st
  end.

(** [_init_chromadb], from the attributes as [__init__] sets them; the
    boolean says that an exception left the method. *)
Definition _init_chromadb : bool * chroma :=
  let st := {| chroma_client := None; collection := None; sleeps := 0 |} in
  let '(returned, st) := connect_loop (seq 0 3) st in
  if returned then (false, st)
  else
    match memory with
    | MemoryClientRaises => (true, st)
    | MemoryCollectionRaises =>
        (true,
         {| chroma_client := Some InMemoryClient;
            collection := collection st;
            sleeps := sleeps st |})
    | MemoryReady =>
        (false,
         {| chroma_client := Some InMemoryClient;
            collection := Some InMemoryClient;
            sleeps := sleeps st |})
    end.

End InitChromadb.

(** ** A base tokenizer for the examples *)

(** Modelled from the spec: the base sentence tokenization of
    [nltk.sent_tokenize], a library that is not part of the repository:
    "end-of-sentence punctuation followed by whitespace and a
    capital-letter or end-of-text heuristic".  It only instantiates the
    parameter [sent_tokenize] in the examples below; every general theorem
    holds for an arbitrary tokenizer. *)
Module BaseTokenizer.

Definition is_terminator (c : ascii) : bool :=
  Ascii.eqb c "."%char || Ascii.eqb c "!"%char || Ascii.eqb c "?"%char.

Definition boundary_follows (r : str) : bool :=
  match r with
  | [] => false
  | c :: _ =>
      isspace c
      && match lstrip r with
         | [] => true
         | d :: _ => isupper d
         end
  end.

(** [skipping]: the white space after a boundary is being dropped; [cur]
    is the sentence being read, last character first. *)
Fixpoint tokenize_from (skipping : bool) (cur : str) (s : str) : list str :=
  match s with
  | [] => if truthy cur then [rev cur] else []
  | c :: r =>
      if skipping && isspace c then tokenize_from true cur r
      else if is_terminator c && boundary_follows r
           then rev (c :: cur) :: tokenize_from true [] r
           else tokenize_from false (c :: cur) r
  end.

Definition sent_tokenize (text : str) : list str := tokenize_from true [] text.

End BaseTokenizer.

(** ** Vocabulary of the properties *)

(** A string that starts and ends with a character that is not white
    space: [strip] leaves it as it is. *)
Definition clean_ends (s : str) : bool :=
  match s with
  | [] => false
  | c :: _ => negb (isspace c) && negb (isspace (last s " "%char))
  end.

Definition no_space (s : str) : bool := forallb (fun c => negb (isspace c)) s.

(** The longest prefix without white space. *)
Fixpoint word_prefix (s : str) : str :=
  match s with
  | [] => []
  | c :: r => if isspace c then [] else c :: word_prefix r
  end.

(** The trailing token of a sentence: its last word, empty when the
    sentence has no word. *)
Definition trailing_token (s : str) : str := last (split s) [].

Definition first_is_lower (s : str) : bool :=
  match s with
  | c :: _ => islower c
  | [] => false
  end.

(** The merge condition in the words of the specification: the trailing
    token is a known abbreviation and the next sentence starts with a
    lowercase character. *)
Definition token_is_abbreviation (current next : str) : bool :=
  existsb (str_eqb (trailing_token current)) abbreviations
  && first_is_lower (strip next).

(** The merge condition that the code computes: the trailing token ends
    with a known abbreviation (as in "final." and "al."). *)
Definition token_ends_with_abbreviation (current next : str) : bool :=
  existsb (endswith (trailing_token current)) abbreviations
  && first_is_lower (strip next).

(** The abbreviation pass as a left-to-right scan: a sentence that merges
    absorbs the next one, joined by one space, and the scan resumes after
    the absorbed sentence; the last sentence never merges. *)
Fixpoint merge_scan (merges : str -> str -> bool) (sentences : list str)
  : list str :=
  match sentences with
  | [] => []
  | current :: rest =>
      match rest with
      | next :: rest' =>
          if merges current next
          then strip (current ++ lit " " ++ strip next) :: merge_scan merges rest'
          else strip current :: merge_scan merges rest
      | [] => [strip current]
      end
  end.

(** A paragraph as the splitter returns it: not empty, no white space at
    either end, and no white space inside other than single spaces.
    [after_space] says that the previous character was a space (or that
    the string starts here). *)
Fixpoint tidy_from (after_space : bool) (s : str) : bool :=
  match s with
  | [] => negb after_space
  | c :: r =>
      if isspace c
      then Ascii.eqb c " "%char && negb after_space && tidy_from true r
      else tidy_from false r
  end.

Definition tidy (s : str) : bool := tidy_from true s.

(** The separator used to join paragraphs again: one blank line. *)
Definition blank_line : str := ["010"%char; "010"%char].

(** The paragraphs that pass the length test of the splitter. *)
Definition long_enough (p : str) : bool := (20 <? len p)%Z.

(** ** The chunks with their overlap made explicit *)

(** A chunk as the loop of [_chunk_paragraph] builds it: the overlap text
    that seeded the accumulator, and the sentences appended to it since. *)
Record entry : Type := {
  e_overlap : str;
  e_fresh : list str
}.

(** The text of such a chunk. *)
Definition render (e : entry) : str :=
  if truthy (e_overlap e)
  then e_overlap e ++ lit " " ++ join (lit " ") (e_fresh e)
  else join (lit " ") (e_fresh e).

Section ChunkTrace.

Variable chunk_size : Z.
Variable chunk_overlap : Z.

(** The test that seals the accumulator before [sentence] is taken. *)
Definition seals (st : chunker) (sentence : str) : bool :=
  (chunk_size
   <? len (if truthy (current_chunk st)
           then current_chunk st ++ lit " " ++ sentence
           else sentence))%Z
  && truthy (current_chunk st).

(** The overlap text that the sealing of [st] carries into the next
    accumulator; empty when the branch without overlap is taken. *)
Definition carried_overlap (st : chunker) : str :=
  if (0 <? chunk_overlap)%Z && truthy (current_sentences st)
  then overlap_loop chunk_overlap (rev (current_sentences st)) [] 0
  else [].

(** The loop state together with the record of what it has built:
    [sealed] describes [chunks], [opened] the accumulator. *)
Record traced : Type := {
  real : chunker;
  sealed : list entry;
  opened : entry
}.

Definition trace_step (t : traced) (sentence : str) : traced :=
  if seals (real t) sentence
  then {| real := chunk_step chunk_size chunk_overlap (real t) sentence;
          sealed := sealed t ++ [opened t];
          opened := {| e_overlap := carried_overlap (real t);
                       e_fresh := [sentence] |} |}
  else {| real := chunk_step chunk_size chunk_overlap (real t) sentence;
          sealed := sealed t;
          opened := {| e_overlap := e_overlap (opened t);
                       e_fresh := e_fresh (opened t) ++ [sentence] |} |}.

Definition trace_init : traced :=
  {| real := chunker_init;
     sealed := [];
     opened := {| e_overlap := []; e_fresh := [] |} |}.

Definition trace_finish (t : traced) : list entry :=
  if truthy (current_chunk (real t))
  then sealed t ++ [opened t]
  else sealed t.

Definition chunk_trace (sentences : list str) : list entry :=
  trace_finish (fold_left trace_step sentences trace_init).

End ChunkTrace.

Definition clean (s : str) : Prop := clean_ends s = true.

(** What links the loop state to its record. *)
Record traced_ok (t : traced) : Prop := {
  ok_chunks : chunks (real t) = map render (sealed t);
  ok_current : current_chunk (real t) = render (opened t);
  ok_pieces : Forall clean (current_sentences (real t));
  ok_opened :
    (e_fresh (opened t) = [] /\ e_overlap (opened t) = [])
    \/ (clean (current_chunk (real t)) /\ e_fresh (opened t) <> [])
}.

(** The sentences that a record accounts for, in order. *)
Definition covered (t : traced) : list str :=
  concat (map e_fresh (sealed t)) ++ e_fresh (opened t).

(** The pieces of a recorded chunk, as [current_sentences] holds them when
    the chunk is sealed: the words of its overlap, then the sentences
    appended. *)
Definition pieces (e : entry) : list str := split (e_overlap e) ++ e_fresh e.

(** The overlap of [e2] is made of trailing pieces of [e1], joined by
    single spaces (of none of them when it is empty). *)
Definition carried_from (e1 e2 : entry) : Prop :=
  exists k, e_overlap e2 = join (lit " ") (skipn k (pieces e1)).

(** Every recorded chunk but the first takes its overlap from the chunk
    before it. *)
Fixpoint overlaps_carried (trace : list entry) : Prop :=
  match trace with
  | [] => True
  | e1 :: rest =>
      match rest with
      | [] => True
      | e2 :: _ => carried_from e1 e2
      end
      /\ overlaps_carried rest
  end.

(** The link kept by the loop between the accumulator and its record. *)
Definition linked (t : traced) : Prop :=
  overlaps_carried (sealed t ++ [opened t])
  /\ current_sentences (real t) = pieces (opened t).

(** The first recorded chunk has no overlap. *)
Definition first_plain (t : traced) : Prop :=
  match sealed t with
  | e :: _ => e_overlap e = []
  | [] => e_overlap (opened t) = []
  end.

(** ** The functions of the class as total functions *)

(** The candidate paragraphs of a text, trimmed. *)
Definition candidates (text : str) : list str :=
  map strip (re_split_blank_lines (strip text)).

(** The sentences of a paragraph: the scan of the base tokenization,
    without the empty strings. *)
Definition segment (sent_tokenize : str -> list str) (text : str)
  : list str :=
  filter (fun s => truthy s)
    (merge_scan token_ends_with_abbreviation (sent_tokenize text)).

(** The chunks of a paragraph. *)
Definition paragraph_chunks (sent_tokenize : str -> list str)
    (chunk_size chunk_overlap : Z) (paragraph : str) : list str :=
  if (len paragraph <=? chunk_size)%Z
  then [paragraph]
  else chunk_finish
         (fold_left (chunk_step chunk_size chunk_overlap)
            (segment sent_tokenize paragraph) chunker_init).

(** ** Vocabulary of the further properties *)

Definition no_newline (s : str) : bool :=
  forallb (fun c => negb (is_newline c)) s.

(** The words of a list of sentences, in order. *)
Definition words_of (sentences : list str) : list str :=
  concat (map split sentences).

(** The characters of a list of strings, separators not counted. *)
Definition total_len (l : list str) : Z :=
  fold_right (fun s n => (len s + n)%Z) 0%Z l.

(** A recorded chunk is within the chunk size unless exactly one sentence
    was appended after its overlap. *)
Definition within_size (chunk_size : Z) (e : entry) : Prop :=
  (len (render e) <= chunk_size)%Z \/ exists s, e_fresh e = [s].

(** The overlap of a recorded chunk is within the budget: it is empty, or
    it is made of pieces, joined by single spaces, whose characters are at
    most [chunk_overlap] when the joining spaces are not counted. *)
Definition within_budget (chunk_overlap : Z) (e : entry) : Prop :=
  e_overlap e = []
  \/ exists taken,
       Forall clean taken /\ taken <> []
       /\ e_overlap e = join (lit " ") taken
       /\ (total_len taken <= chunk_overlap)%Z.

(** What the loop keeps about the size of the accumulator. *)
Definition sized (chunk_size : Z) (t : traced) : Prop :=
  Forall (within_size chunk_size) (sealed t)
  /\ ((len (current_chunk (real t)) <= chunk_size)%Z
      \/ length (e_fresh (opened t)) <= 1).

(** What the loop keeps about the overlaps. *)
Definition budgeted (chunk_overlap : Z) (t : traced) : Prop :=
  Forall (within_budget chunk_overlap) (sealed t)
  /\ within_budget chunk_overlap (opened t).

(** Every sealed chunk was closed because the next sentence did not fit:
    the chunk, a space and the first sentence appended to the next chunk
    are longer than the chunk size. *)
Fixpoint closed_when_full (chunk_size : Z) (trace : list entry) : Prop :=
  match trace with
  | [] => True
  | e1 :: rest =>
      match rest with
      | [] => True
      | e2 :: _ =>
          exists s more,
            e_fresh e2 = s :: more
            /\ (chunk_size < len (render e1 ++ lit " " ++ s))%Z
      end
      /\ closed_when_full chunk_size rest
  end.

(** A decimal digit. *)
Definition is_digit (c : ascii) : bool :=
  let n := nat_of_ascii c in (48 <=? n) && (n <=? 57).

(** * Properties *)

(** ** Facts about the string primitives *)
Section StringFacts.

Lemma lstrip_all_space (s : str) :
  forallb isspace s = true -> lstrip s = [].
Proof.
  induction s as [|c r IH]; simpl; [reflexivity|].
  intros H. apply andb_true_iff in H as [Hc Hr].
  rewrite Hc. exact (IH Hr).
Qed.

Lemma forallb_rev {A} (f : A -> bool) (l : list A) :
  forallb f (rev l) = forallb f l.
Proof.
  induction l as [|a l IH]; simpl; [reflexivity|].
  rewrite forallb_app, IH. simpl. rewrite andb_true_r. apply andb_comm.
Qed.

Lemma strip_all_space (s : str) :
  forallb isspace s = true -> strip s = [].
Proof.
  intros H. unfold strip, rstrip.
  rewrite (lstrip_all_space (rev s)) by (rewrite forallb_rev; exact H).
  reflexivity.
Qed.

Lemma lstrip_head (s : str) :
  lstrip s = [] \/ exists c r, lstrip s = c :: r /\ isspace c = false.
Proof.
  induction s as [|c r IH]; simpl; [now left|].
  destruct (isspace c) eqn:Hc; [exact IH|].
  right. now exists c, r.
Qed.

Lemma lstrip_fixed (c : ascii) (r : str) :
  isspace c = false -> lstrip (c :: r) = c :: r.
Proof. intros H. simpl. now rewrite H. Qed.

Lemma lstrip_snoc (v : str) (a : ascii) :
  isspace a = false -> exists w, lstrip (v ++ [a]) = w ++ [a].
Proof.
  intros Ha. induction v as [|c v IH]; simpl.
  - rewrite Ha. now exists [].
  - destruct (isspace c); [exact IH|]. now exists (c :: v).
Qed.

Lemma clean_ends_snoc (w : str) (a : ascii) :
  isspace a = false ->
  match w ++ [a] with [] => True | c :: _ => isspace c = false end ->
  clean_ends (w ++ [a]) = true.
Proof.
  intros Ha Hh. unfold clean_ends.
  destruct (w ++ [a]) as [|c r] eqn:E.
  - now destruct w.
  - rewrite <- E, last_last, Ha, Hh. reflexivity.
Qed.

Lemma clean_ends_strip (s : str) :
  strip s <> [] -> clean_ends (strip s) = true.
Proof.
  unfold strip, rstrip. intros Hne.
  destruct (lstrip_head (rev s)) as [E | (a & u & E & Ha)].
  - rewrite E in Hne. now simpl in Hne.
  - rewrite E in *. simpl rev in *.
    destruct (lstrip_snoc (rev u) a Ha) as [w Hw].
    destruct (lstrip_head (rev u ++ [a])) as [E' | (c & r & E' & Hc)].
    + now rewrite E' in Hne.
    + rewrite Hw. apply clean_ends_snoc; [exact Ha|].
      rewrite <- Hw, E'. exact Hc.
Qed.

Lemma strip_clean_ends (s : str) :
  clean_ends s = true -> strip s = s.
Proof.
  unfold clean_ends. destruct s as [|c r]; [discriminate|].
  intros H. apply andb_true_iff in H as [Hc Hl].
  apply negb_true_iff in Hc, Hl.
  destruct (exists_last (l := c :: r)) as (x & a & E); [discriminate|].
  rewrite E in Hl. rewrite last_last in Hl.
  unfold strip, rstrip. rewrite E, rev_app_distr. simpl rev at 2. simpl app.
  rewrite (lstrip_fixed a _ Hl). simpl rev. rewrite rev_involutive, <- E.
  apply lstrip_fixed, Hc.
Qed.

Lemma strip_idempotent (s : str) : strip (strip s) = strip s.
Proof.
  destruct (strip s) eqn:E; [reflexivity|].
  rewrite <- E. apply strip_clean_ends, clean_ends_strip.
  rewrite E. discriminate.
Qed.

Lemma clean_ends_truthy (s : str) : clean_ends s = true -> truthy s = true.
Proof. now destruct s. Qed.

Lemma last_app_nonempty (a b : str) (d : ascii) :
  b <> [] -> last (a ++ b) d = last b d.
Proof.
  intros Hb. destruct (exists_last Hb) as (x & y & ->).
  now rewrite app_assoc, !last_last.
Qed.

(** Joining two such strings, whatever is put between them, gives such a
    string. *)
Lemma clean_ends_app (a m b : str) :
  clean_ends a = true -> clean_ends b = true ->
  clean_ends (a ++ m ++ b) = true.
Proof.
  destruct a as [|c a]; [discriminate|].
  destruct b as [|d b]; [discriminate|].
  unfold clean_ends. intros Ha Hb.
  apply andb_true_iff in Ha as [Hc _].
  apply andb_true_iff in Hb as [_ Hl].
  rewrite <- app_comm_cons. cbv beta iota. rewrite Hc. simpl andb.
  change (c :: a ++ m ++ d :: b) with ((c :: a) ++ m ++ d :: b).
  rewrite app_assoc, last_app_nonempty by discriminate.
  destruct ((a ++ m) ++ d :: b) eqn:E; [|exact Hl].
  apply app_eq_nil in E as [_ E]. discriminate.
Qed.

End StringFacts.

(** ** The abbreviation pass *)
Section AbbreviationPass.

Lemma startswith_word_prefix (p t : str) :
  no_space p = true -> startswith t p = startswith (word_prefix t) p.
Proof.
  revert t. induction p as [|y p IH]; intros t Hp; [now destruct t|].
  simpl in Hp. apply andb_true_iff in Hp as [Hy Hp].
  apply negb_true_iff in Hy.
  destruct t as [|x t]; [reflexivity|]. simpl.
  destruct (isspace x) eqn:Hx.
  - destruct (Ascii.eqb x y) eqn:E; [|reflexivity].
    apply Ascii.eqb_eq in E. congruence.
  - simpl. now rewrite (IH t Hp).
Qed.

Lemma word_prefix_no_space (s : str) : no_space s = true -> word_prefix s = s.
Proof.
  induction s as [|c r IH]; simpl; [reflexivity|].
  intros H. apply andb_true_iff in H as [Hc Hr].
  apply negb_true_iff in Hc. rewrite Hc. now rewrite IH.
Qed.

Lemma word_prefix_app_space (u v : str) (c : ascii) :
  isspace c = true -> word_prefix (u ++ c :: v) = word_prefix u.
Proof.
  intros Hc. induction u as [|x u IH]; simpl; [now rewrite Hc|].
  destruct (isspace x); [reflexivity|]. now rewrite IH.
Qed.

Lemma lstrip_no_space (s : str) : no_space s = true -> lstrip s = s.
Proof.
  destruct s as [|c r]; [reflexivity|]. simpl.
  intros H. apply andb_true_iff in H as [Hc _].
  apply negb_true_iff in Hc. now rewrite Hc.
Qed.

Lemma lstrip_app (u v : str) :
  lstrip (u ++ v) = if forallb isspace u then lstrip v else lstrip u ++ v.
Proof.
  induction u as [|x u IH]; simpl; [reflexivity|].
  destruct (isspace x); [exact IH|reflexivity].
Qed.

Lemma split_from_nil (s : str) :
  split_from [] s = [] <-> forallb isspace s = true.
Proof.
  assert (G : forall s cur, split_from cur s = [] <->
              cur = [] /\ forallb isspace s = true).
  { clear s. induction s as [|c r IH]; intros cur; simpl.
    - destruct cur; simpl; split; intros H; easy.
    - destruct (isspace c) eqn:Hc; simpl.
      + destruct cur; simpl.
        * rewrite IH. tauto.
        * split; [discriminate|]. now intros [? _].
      + rewrite IH. split; [now intros [? _]|now intros [_ ?]]. }
  rewrite G. tauto.
Qed.

(** The trailing token, read backwards, is the first word of the reversed
    sentence. *)
Lemma last_split_from (s cur : str) :
  no_space cur = true ->
  rev (last (split_from cur s) []) = word_prefix (lstrip (rev s ++ cur)).
Proof.
  revert cur. induction s as [|c r IH]; intros cur Hcur.
  - simpl. rewrite (lstrip_no_space _ Hcur), (word_prefix_no_space _ Hcur).
    destruct cur; simpl; [reflexivity|].
    now rewrite rev_app_distr, rev_involutive.
  - simpl split_from. simpl rev. rewrite <- app_assoc. simpl app.
    destruct (isspace c) eqn:Hc.
    + assert (E : rev (last (rev cur :: split_from [] r) []) =
                  word_prefix (lstrip (rev r ++ c :: cur))).
      { rewrite lstrip_app, forallb_rev.
        destruct (forallb isspace r) eqn:Hr.
        - apply split_from_nil in Hr. rewrite Hr. simpl.
          rewrite Hc, rev_involutive, (lstrip_no_space _ Hcur).
          now rewrite (word_prefix_no_space _ Hcur).
        - rewrite (word_prefix_app_space _ _ _ Hc).
          specialize (IH [] eq_refl). rewrite app_nil_r in IH.
          rewrite <- IH.
          destruct (split_from [] r) eqn:E; [|reflexivity].
          apply split_from_nil in E. congruence. }
      destruct cur as [|x cur]; [|exact E].
      simpl truthy. cbv iota.
      rewrite <- E. simpl rev at 2.
      destruct (split_from [] r); reflexivity.
    + apply IH. simpl. now rewrite Hc, Hcur.
Qed.

Lemma rev_trailing_token (s : str) :
  rev (trailing_token s) = word_prefix (lstrip (rev s)).
Proof.
  unfold trailing_token, split.
  rewrite (last_split_from s [] eq_refl). now rewrite app_nil_r.
Qed.

Lemma no_space_rev (s : str) : no_space (rev s) = no_space s.
Proof. apply forallb_rev. Qed.

Lemma endswith_trailing_token (s a : str) :
  no_space a = true ->
  endswith (rstrip s) a = endswith (trailing_token s) a.
Proof.
  intros Ha. unfold endswith, rstrip.
  rewrite rev_involutive, rev_trailing_token.
  apply startswith_word_prefix. now rewrite no_space_rev.
Qed.

Lemma abbreviations_no_space : forallb no_space abbreviations = true.
Proof. reflexivity. Qed.

Lemma existsb_ext_in {A} (f g : A -> bool) (l : list A) :
  (forall x, In x l -> f x = g x) -> existsb f l = existsb g l.
Proof.
  induction l as [|a l IH]; intros H; simpl; [reflexivity|].
  rewrite (H a (or_introl eq_refl)), IH; [reflexivity|].
  intros x Hx. apply H. now right.
Qed.

(** The test of the code is a test on the trailing token. *)
Lemma ends_with_abbreviation_token (s : str) :
  ends_with_abbreviation s =
  existsb (endswith (trailing_token s)) abbreviations.
Proof.
  unfold ends_with_abbreviation.
  rewrite (existsb_ext_in _ (endswith (trailing_token s))).
  - unfold trailing_token. destruct (split s); [reflexivity|].
    reflexivity.
  - intros a Ha. apply endswith_trailing_token.
    pose proof abbreviations_no_space as H.
    rewrite forallb_forall in H. now apply H.
Qed.

End AbbreviationPass.

(** ** The [while] loop of [_split_into_sentences] *)
Section MergeLoop.

Lemma skipn_nth_error {A} (l : list A) (i : nat) (x : A) :
  nth_error l i = Some x -> skipn i l = x :: skipn (S i) l.
Proof.
  revert l. induction i as [|i IH]; intros [|a l] H; try discriminate.
  - now inversion H.
  - simpl in H. change (skipn (S i) (a :: l)) with (skipn i l).
    now rewrite (IH l H).
Qed.

Lemma merge_scan_pair (m : str -> str -> bool) (current next : str)
    (rest : list str) :
  merge_scan m (current :: next :: rest) =
  if m current next
  then strip (current ++ lit " " ++ strip next) :: merge_scan m rest
  else strip current :: merge_scan m (next :: rest).
Proof. reflexivity. Qed.

Lemma merge_loop_done (fuel : nat) (sentences : list str) (i : nat)
    (processed : list str) :
  length sentences <= i ->
  merge_loop fuel sentences i processed = Ok processed.
Proof.
  intros Hi. apply Nat.ltb_ge in Hi.
  destruct fuel; simpl; now rewrite Hi.
Qed.

Lemma merge_loop_step (fuel : nat) (sentences : list str) (i : nat)
    (processed : list str) :
  i < length sentences ->
  merge_loop (S fuel) sentences i processed =
  (r <- merge_at sentences i ;;
   let '(current_sentence, i) := r in
   merge_loop fuel sentences (i + 1)
     (processed ++ [strip current_sentence])).
Proof.
  intros Hi. apply Nat.ltb_lt in Hi. simpl. now rewrite Hi.
Qed.

Lemma token_condition_code (current next : str) :
  token_ends_with_abbreviation current next =
  ends_with_abbreviation current && first_is_lower (strip next).
Proof.
  unfold token_ends_with_abbreviation.
  now rewrite ends_with_abbreviation_token.
Qed.

(** With enough fuel the loop returns, and what it returns is the scan of
    the sentences from index [i] on. *)
Lemma merge_loop_scan (sentences : list str) (fuel i : nat)
    (processed : list str) :
  length sentences - i <= fuel ->
  merge_loop fuel sentences i processed =
  Ok (processed
      ++ merge_scan token_ends_with_abbreviation (skipn i sentences)).
Proof.
  revert i processed. induction fuel as [|fuel IH]; intros i processed Hf.
  - rewrite merge_loop_done by lia.
    rewrite skipn_all2 by lia. simpl. now rewrite app_nil_r.
  - destruct (Nat.le_gt_cases (length sentences) i) as [Hi | Hi].
    { rewrite merge_loop_done by lia.
      rewrite skipn_all2 by lia. simpl. now rewrite app_nil_r. }
    rewrite merge_loop_step by exact Hi.
    destruct (nth_error sentences i) as [cur|] eqn:Hcur;
      [|apply nth_error_None in Hcur; lia].
    rewrite (skipn_nth_error _ _ _ Hcur).
    unfold merge_at, getitem. rewrite Hcur. cbn [bind].
    destruct (Z.of_nat i <? len sentences - 1)%Z eqn:Hlast.
    + apply Z.ltb_lt in Hlast. unfold len in Hlast.
      replace (i + 1) with (S i) by lia.
      destruct (nth_error sentences (S i)) as [next|] eqn:Hnext;
        [|apply nth_error_None in Hnext; lia].
      rewrite (skipn_nth_error _ _ _ Hnext), merge_scan_pair.
      rewrite token_condition_code.
      destruct (ends_with_abbreviation cur); cbn [andb bind].
      * assert (E : (if truthy (strip next)
                     then c <- (match nth_error (strip next) 0 with
                                | Some x => Ok x
                                | None => Raise IndexError
                                end) ;; Ok (islower c)
                     else Ok false) = Ok (first_is_lower (strip next))).
        { now destruct (strip next). }
        rewrite E. cbn [bind].
        destruct (first_is_lower (strip next)); cbn [bind].
        -- replace (S i + 1) with (S (S i)) by lia.
           rewrite IH by lia. now rewrite <- app_assoc.
        -- replace (i + 1) with (S i) by lia.
           rewrite IH by lia.
           now rewrite (skipn_nth_error _ _ _ Hnext), <- app_assoc.
      * replace (i + 1) with (S i) by lia.
        rewrite IH by lia.
        now rewrite (skipn_nth_error _ _ _ Hnext), <- app_assoc.
    + apply Z.ltb_ge in Hlast. unfold len in Hlast.
      cbn [bind]. replace (i + 1) with (S i) by lia.
      rewrite IH by lia. rewrite skipn_all2 by lia.
      simpl. now rewrite <- app_assoc.
Qed.

Lemma merge_abbreviations_scan (sentences : list str) :
  merge_abbreviations sentences =
  Ok (filter (fun s => truthy s)
        (merge_scan token_ends_with_abbreviation sentences)).
Proof.
  unfold merge_abbreviations.
  rewrite merge_loop_scan by lia. reflexivity.
Qed.

(** Every sentence that the segmenter returns starts and ends with a
    character that is not white space. *)
Lemma merge_scan_stripped (m : str -> str -> bool) (sentences : list str) :
  Forall (fun s => strip s = s) (merge_scan m sentences).
Proof.
  assert (G : forall n sentences, length sentences <= n ->
              Forall (fun s => strip s = s) (merge_scan m sentences)).
  { clear sentences. induction n as [|n IH]; intros [|cur [|next rest]] Hn;
      simpl in Hn; try lia; try constructor.
    - apply strip_idempotent.
    - constructor.
    - rewrite merge_scan_pair. destruct (m cur next); constructor;
        try apply strip_idempotent; apply IH; simpl; lia. }
  apply (G (length sentences)). lia.
Qed.

End MergeLoop.

(** ** The paragraph splitter *)
Section Paragraphs.

Lemma fold_clean_paragraph (paragraphs cleaned : list str) :
  fold_left clean_paragraph paragraphs cleaned =
  cleaned ++ map re_sub_spaces (filter long_enough (map strip paragraphs)).
Proof.
  revert cleaned. induction paragraphs as [|para rest IH]; intros cleaned.
  - simpl. now rewrite app_nil_r.
  - simpl. rewrite IH. unfold clean_paragraph, long_enough.
    destruct (strip para) as [|c r] eqn:E.
    + reflexivity.
    + simpl truthy. cbn [andb].
      destruct (20 <? len (c :: r))%Z; [|reflexivity].
      simpl. now rewrite <- app_assoc.
Qed.

Lemma _split_by_paragraphs_filter (text : str) :
  _split_by_paragraphs text =
  map re_sub_spaces
    (filter long_enough (map strip (re_split_blank_lines (strip text)))).
Proof. unfold _split_by_paragraphs. now rewrite fold_clean_paragraph. Qed.

Lemma tidy_from_re_sub (s : str) (b : bool) :
  tidy_from b s = true -> re_sub_from b s = s.
Proof.
  revert b. induction s as [|c r IH]; intros b H; [reflexivity|].
  simpl in *. destruct (isspace c).
  - apply andb_true_iff in H as [H Hr]. apply andb_true_iff in H as [Hc Hb].
    apply negb_true_iff in Hb. subst b.
    apply Ascii.eqb_eq in Hc. subst c.
    now rewrite (IH true).
  - now rewrite (IH false).
Qed.

Lemma tidy_head (s : str) :
  tidy s = true -> exists c r, s = c :: r /\ isspace c = false.
Proof.
  unfold tidy. destruct s as [|c r]; [discriminate|]. simpl.
  destruct (isspace c) eqn:Hc.
  - rewrite andb_false_r. discriminate.
  - intros _. now exists c, r.
Qed.

Lemma tidy_re_sub_spaces (s : str) : tidy s = true -> re_sub_spaces s = s.
Proof.
  intros H. destruct (tidy_head s H) as (c & r & -> & Hc).
  unfold tidy, re_sub_spaces in *. simpl in *. rewrite Hc in *.
  now rewrite (tidy_from_re_sub r false H).
Qed.

Lemma tidy_from_last (s : str) (b : bool) (d : ascii) :
  tidy_from b s = true -> s <> [] -> isspace (last s d) = false.
Proof.
  revert b. induction s as [|c r IH]; intros b H Hne; [easy|].
  destruct r as [|c' r'].
  - simpl in *. destruct (isspace c); [|reflexivity].
    rewrite andb_false_r in H. discriminate.
  - change (last (c :: c' :: r') d) with (last (c' :: r') d).
    simpl in H. destruct (isspace c).
    + apply andb_true_iff in H as [_ H]. now apply (IH true).
    + now apply (IH false).
Qed.

Lemma tidy_clean_ends (s : str) : tidy s = true -> clean_ends s = true.
Proof.
  intros H. destruct (tidy_head s H) as (c & r & -> & Hc).
  unfold clean_ends. rewrite Hc.
  rewrite (tidy_from_last (c :: r) true _ H) by discriminate.
  reflexivity.
Qed.

(** Collapsing the white space of a string with clean ends gives a tidy
    string. *)
Lemma re_sub_from_tidy (s : str) (b : bool) :
  s <> [] -> isspace (last s " "%char) = false ->
  tidy_from b (re_sub_from b s) = true.
Proof.
  revert b. induction s as [|c r IH]; intros b Hne Hl; [easy|].
  destruct r as [|c' r'].
  - change (last [c] " "%char) with c in Hl.
    cbn [re_sub_from]. rewrite Hl. cbn [tidy_from]. now rewrite Hl.
  - change (last (c :: c' :: r') " "%char) with (last (c' :: r') " "%char) in Hl.
    assert (Hr : c' :: r' <> []) by discriminate.
    cbn [re_sub_from]. destruct (isspace c) eqn:Hc.
    + destruct b.
      * now apply IH.
      * cbn [tidy_from]. change (isspace " "%char) with true.
        cbv iota. simpl andb. now apply IH.
    + cbn [tidy_from]. rewrite Hc. now apply IH.
Qed.

Lemma clean_ends_re_sub_tidy (s : str) :
  clean_ends s = true -> tidy (re_sub_spaces s) = true.
Proof.
  unfold clean_ends. destruct s as [|c r]; [discriminate|].
  intros H. apply andb_true_iff in H as [Hc Hl].
  apply negb_true_iff in Hc, Hl.
  unfold tidy, re_sub_spaces. cbn [re_sub_from]. rewrite Hc.
  cbn [tidy_from]. rewrite Hc.
  destruct r as [|c' r']; [reflexivity|].
  apply re_sub_from_tidy; [discriminate|exact Hl].
Qed.

Lemma long_enough_nonempty (p : str) : long_enough p = true -> p <> [].
Proof. now destruct p. Qed.

(** Every paragraph that the splitter returns is tidy. *)
Lemma _split_by_paragraphs_tidy (text : str) :
  Forall (fun p => tidy p = true) (_split_by_paragraphs text).
Proof.
  rewrite _split_by_paragraphs_filter. apply Forall_forall. intros p Hp.
  apply in_map_iff in Hp as (q & <- & Hq).
  apply filter_In in Hq as [Hq Hlen].
  apply in_map_iff in Hq as (c & <- & _).
  apply clean_ends_re_sub_tidy, clean_ends_strip.
  now apply long_enough_nonempty.
Qed.

End Paragraphs.

(** ** Splitting paragraphs that were joined by blank lines *)
Section Rejoin.

Lemma newline_isspace (c : ascii) : is_newline c = true -> isspace c = true.
Proof.
  unfold is_newline. intros H. apply Ascii.eqb_eq in H. now subst c.
Qed.

(** A tidy piece has no newline, so no separator matches inside it. *)
Lemma re_split_from_tidy (p : str) (b : bool) (cur rest : str) :
  tidy_from b p = true ->
  re_split_from 0 cur (p ++ rest) = re_split_from 0 (rev p ++ cur) rest.
Proof.
  revert b cur. induction p as [|c r IH]; intros b cur H; [reflexivity|].
  assert (Hn : is_newline c = false).
  { destruct (is_newline c) eqn:E; [|reflexivity].
    pose proof (newline_isspace c E) as Hs.
    apply Ascii.eqb_eq in E. subst c. simpl in H. discriminate. }
  assert (Hr : exists b', tidy_from b' r = true).
  { cbn [tidy_from] in H. destruct (isspace c).
    - apply andb_true_iff in H as [_ H]. now exists true.
    - now exists false. }
  destruct Hr as [b' Hr].
  rewrite <- app_comm_cons. cbn [re_split_from match_blank_line].
  rewrite Hn. rewrite (IH b' (c :: cur) Hr).
  simpl rev. now rewrite <- app_assoc.
Qed.

Lemma re_split_from_blank_line (cur q : str) (d : ascii) :
  isspace d = false ->
  re_split_from 0 cur (blank_line ++ d :: q) =
  rev cur :: re_split_from 0 [] (d :: q).
Proof.
  intros Hd. unfold blank_line.
  cbn [app re_split_from match_blank_line span_space].
  change (is_newline "010"%char) with true.
  change (isspace "010"%char) with true.
  cbv iota. rewrite Hd. reflexivity.
Qed.

Lemma join_head (sep : str) (p : str) (ps : list str) (c : ascii) (r : str) :
  p = c :: r -> exists q, join sep (p :: ps) = c :: q.
Proof.
  intros ->. destruct ps as [|p' ps]; simpl; eauto.
Qed.

Lemma re_split_join_tidy (ps : list str) :
  Forall (fun p => tidy p = true) ps -> ps <> [] ->
  re_split_blank_lines (join blank_line ps) = ps.
Proof.
  unfold re_split_blank_lines.
  induction ps as [|p ps IH]; intros Hall Hne; [easy|].
  inversion Hall as [|? ? Hp Hps]; subst.
  destruct ps as [|p' ps'].
  - simpl join. rewrite <- (app_nil_r p) at 1.
    rewrite (re_split_from_tidy p true [] [] Hp). simpl.
    now rewrite app_nil_r, rev_involutive.
  - change (join blank_line (p :: p' :: ps'))
      with (p ++ blank_line ++ join blank_line (p' :: ps')).
    rewrite (re_split_from_tidy p true [] _ Hp).
    inversion Hps as [|? ? Hp' _]; subst.
    destruct (tidy_head p' Hp') as (d & r & E & Hd).
    destruct (join_head blank_line p' ps' d r E) as [q Hq].
    rewrite Hq, (re_split_from_blank_line _ q d Hd), <- Hq.
    rewrite app_nil_r, rev_involutive.
    f_equal. apply IH; [exact Hps|discriminate].
Qed.

Lemma clean_ends_join (sep : str) (ps : list str) :
  Forall (fun p => clean_ends p = true) ps -> ps <> [] ->
  clean_ends (join sep ps) = true.
Proof.
  induction ps as [|p ps IH]; intros Hall Hne; [easy|].
  inversion Hall as [|? ? Hp Hps]; subst.
  destruct ps as [|p' ps']; [exact Hp|].
  change (join sep (p :: p' :: ps')) with (p ++ sep ++ join sep (p' :: ps')).
  apply clean_ends_app; [exact Hp|].
  apply IH; [exact Hps|discriminate].
Qed.

Lemma map_fixed {A} (f : A -> A) (l : list A) :
  Forall (fun x => f x = x) l -> map f l = l.
Proof.
  induction 1 as [|x l Hx _ IH]; simpl; [reflexivity|]. now rewrite Hx, IH.
Qed.

Lemma Forall_filter {A} (P : A -> Prop) (f : A -> bool) (l : list A) :
  Forall P l -> Forall P (filter f l).
Proof.
  induction 1 as [|x l Hx _ IH]; simpl; [constructor|].
  destruct (f x); [now constructor|exact IH].
Qed.

(** Splitting tidy paragraphs joined by blank lines keeps those that are
    longer than 20 characters, unchanged and in order. *)
Lemma split_join_tidy (ps : list str) :
  Forall (fun p => tidy p = true) ps ->
  _split_by_paragraphs (join blank_line ps) = filter long_enough ps.
Proof.
  intros Hall. destruct ps as [|p ps']; [reflexivity|].
  set (ps := p :: ps') in *.
  assert (Hne : ps <> []) by discriminate.
  assert (Hclean : Forall (fun p => clean_ends p = true) ps).
  { eapply Forall_impl; [|exact Hall]. intros a. apply tidy_clean_ends. }
  rewrite _split_by_paragraphs_filter.
  rewrite (strip_clean_ends _ (clean_ends_join blank_line ps Hclean Hne)).
  rewrite (re_split_join_tidy ps Hall Hne).
  rewrite (map_fixed strip).
  - apply map_fixed, Forall_filter.
    eapply Forall_impl; [|exact Hall]. intros a. apply tidy_re_sub_spaces.
  - eapply Forall_impl; [|exact Hclean]. intros a. apply strip_clean_ends.
Qed.

End Rejoin.

(** ** The loop of [_chunk_paragraph] *)
Section Chunker.

Variable chunk_size : Z.
Variable chunk_overlap : Z.

Local Abbreviation step := (chunk_step chunk_size chunk_overlap).
Local Abbreviation tstep := (trace_step chunk_size chunk_overlap).
Local Abbreviation overlap_of := (carried_overlap chunk_overlap).

Lemma fold_left_invariant {A B} (f : A -> B -> A) (P : A -> Prop)
    (Q : B -> Prop) :
  (forall a b, P a -> Q b -> P (f a b)) ->
  forall l a, Forall Q l -> P a -> P (fold_left f l a).
Proof.
  intros Hstep. induction l as [|b l IH]; intros a Hl Ha; [exact Ha|].
  inversion Hl; subst. simpl. apply IH; [assumption|]. now apply Hstep.
Qed.

Lemma no_space_clean (w : str) : w <> [] -> no_space w = true -> clean w.
Proof.
  intros Hne Hw. unfold clean, clean_ends.
  destruct w as [|c r]; [easy|].
  unfold no_space in Hw. rewrite forallb_forall in Hw.
  rewrite (Hw c (or_introl eq_refl)).
  destruct (exists_last Hne) as (x & a & E).
  rewrite E, last_last. rewrite (Hw a); [reflexivity|].
  rewrite E. apply in_or_app. right. now left.
Qed.

Lemma split_from_words (s cur : str) :
  no_space cur = true ->
  Forall (fun w => w <> [] /\ no_space w = true) (split_from cur s).
Proof.
  revert cur. induction s as [|c r IH]; intros cur Hcur.
  - simpl. destruct cur as [|x cur]; simpl; constructor; [|constructor].
    split.
    + intros E. apply (f_equal (@length ascii)) in E.
      rewrite length_app in E. simpl in E. lia.
    + change (no_space (rev (x :: cur)) = true).
      now rewrite no_space_rev.
  - simpl. destruct (isspace c) eqn:Hc.
    + destruct cur as [|x cur]; simpl; [now apply IH|].
      constructor; [|now apply IH]. split.
      * intros E. apply (f_equal (@length ascii)) in E.
        rewrite length_app in E. simpl in E. lia.
      * change (no_space (rev (x :: cur)) = true).
        now rewrite no_space_rev.
    + apply IH. simpl. now rewrite Hc, Hcur.
Qed.

Lemma split_clean (s : str) : Forall clean (split s).
Proof.
  eapply Forall_impl; [|apply (split_from_words s [] eq_refl)].
  intros w [Hne Hw]. now apply no_space_clean.
Qed.

Lemma overlap_loop_clean (prevs : list str) (text : str) (chars : Z) :
  Forall clean prevs -> text = [] \/ clean text ->
  overlap_loop chunk_overlap prevs text chars = []
  \/ clean (overlap_loop chunk_overlap prevs text chars).
Proof.
  revert text chars. induction prevs as [|p prevs IH];
    intros text chars Hall Ht; [exact Ht|].
  inversion Hall as [|? ? Hp Hprevs]; subst. simpl.
  destruct (chars + len p <=? chunk_overlap)%Z; [|exact Ht].
  apply IH; [exact Hprevs|]. right.
  destruct Ht as [-> | Ht]; [exact Hp|].
  rewrite (clean_ends_truthy text Ht).
  exact (clean_ends_app p (lit " ") text Hp Ht).
Qed.

Lemma carried_overlap_clean (st : chunker) :
  Forall clean (current_sentences st) ->
  overlap_of st = [] \/ clean (overlap_of st).
Proof.
  intros H. unfold carried_overlap.
  destruct ((0 <? chunk_overlap)%Z && truthy (current_sentences st));
    [|now left].
  apply overlap_loop_clean; [|now left].
  now apply Forall_rev.
Qed.

Lemma chunk_step_seal (st : chunker) (sentence : str) :
  seals chunk_size st sentence = true ->
  step st sentence =
  {| chunks := chunks st ++ [strip (current_chunk st)];
     current_chunk :=
       if truthy (overlap_of st)
       then overlap_of st ++ lit " " ++ sentence
       else sentence;
     current_sentences :=
       if truthy (overlap_of st)
       then split (overlap_of st) ++ [sentence]
       else [sentence] |}.
Proof.
  unfold seals, chunk_step, carried_overlap. intros ->.
  destruct ((0 <? chunk_overlap)%Z && truthy (current_sentences st));
    [|reflexivity].
  now destruct (overlap_loop chunk_overlap (rev (current_sentences st)) [] 0).
Qed.

Lemma chunk_step_append (st : chunker) (sentence : str) :
  seals chunk_size st sentence = false ->
  step st sentence =
  {| chunks := chunks st;
     current_chunk :=
       if truthy (current_chunk st)
       then current_chunk st ++ lit " " ++ sentence
       else sentence;
     current_sentences := current_sentences st ++ [sentence] |}.
Proof. unfold seals, chunk_step. now intros ->. Qed.

Lemma real_trace_step (t : traced) (sentence : str) :
  real (tstep t sentence) = step (real t) sentence.
Proof. unfold trace_step. now destruct (seals chunk_size (real t) sentence). Qed.

Lemma real_fold_trace (sentences : list str) (t : traced) :
  real (fold_left tstep sentences t) = fold_left step sentences (real t).
Proof.
  revert t. induction sentences as [|s l IH]; intros t; [reflexivity|].
  simpl. now rewrite IH, real_trace_step.
Qed.

Lemma join_snoc (sep : str) (l : list str) (s : str) :
  l <> [] -> join sep (l ++ [s]) = join sep l ++ sep ++ s.
Proof.
  induction l as [|x l IH]; [easy|]. intros _.
  destruct l as [|y l]; [reflexivity|].
  change (join sep ((x :: y :: l) ++ [s]))
    with (x ++ sep ++ join sep ((y :: l) ++ [s])).
  rewrite IH by discriminate.
  change (join sep (x :: y :: l)) with (x ++ sep ++ join sep (y :: l)).
  now rewrite <- !app_assoc.
Qed.

Lemma traced_ok_init : traced_ok trace_init.
Proof. constructor; simpl; auto. Qed.

Lemma traced_ok_current (t : traced) :
  traced_ok t -> truthy (current_chunk (real t)) = true ->
  clean (current_chunk (real t)).
Proof.
  intros [_ Hc _ [[Hf Ho] | [H _]]] Ht; [|exact H].
  unfold render in Hc. rewrite Ho, Hf in Hc. simpl in Hc.
  rewrite Hc in Ht. discriminate.
Qed.

Lemma trace_step_ok (t : traced) (sentence : str) :
  traced_ok t -> clean sentence -> traced_ok (tstep t sentence).
Proof.
  intros Hok Hs. unfold trace_step.
  destruct (seals chunk_size (real t) sentence) eqn:Hseal.
  - rewrite (chunk_step_seal _ _ Hseal).
    assert (Ht : truthy (current_chunk (real t)) = true).
    { unfold seals in Hseal. now apply andb_true_iff in Hseal as [_ ?]. }
    pose proof (traced_ok_current t Hok Ht) as Hcur.
    pose proof (carried_overlap_clean (real t) (ok_pieces t Hok)) as Hov.
    constructor; cbn [real sealed opened chunks current_chunk
                      current_sentences e_overlap e_fresh].
    + rewrite (ok_chunks t Hok), map_app. cbn [map].
      now rewrite (strip_clean_ends _ Hcur), (ok_current t Hok).
    + unfold render. cbn [e_overlap e_fresh join]. reflexivity.
    + destruct (truthy (overlap_of (real t))).
      * apply Forall_app. split; [apply split_clean|now constructor].
      * now constructor.
    + right. split; [|discriminate].
      destruct Hov as [E | Hc].
      * rewrite E. exact Hs.
      * rewrite (clean_ends_truthy _ Hc).
        exact (clean_ends_app _ (lit " ") _ Hc Hs).
  - rewrite (chunk_step_append _ _ Hseal).
    constructor; cbn [real sealed opened chunks current_chunk
                      current_sentences e_overlap e_fresh].
    + exact (ok_chunks t Hok).
    + destruct (ok_opened t Hok) as [[Hf Ho] | [Hc Hf]].
      * pose proof (ok_current t Hok) as E. unfold render in E.
        rewrite Ho, Hf in E. cbn in E. rewrite E.
        unfold render. cbn [e_overlap e_fresh]. now rewrite Ho, Hf.
      * rewrite (clean_ends_truthy _ Hc).
        unfold render. cbn [e_overlap e_fresh].
        rewrite (join_snoc _ _ _ Hf), (ok_current t Hok). unfold render.
        destruct (truthy (e_overlap (opened t)));
          now rewrite <- ?app_assoc.
    + apply Forall_app. split; [exact (ok_pieces t Hok)|now constructor].
    + right. split; [|now destruct (e_fresh (opened t))].
      destruct (truthy (current_chunk (real t))) eqn:Ht; [|exact Hs].
      exact (clean_ends_app _ (lit " ") _ (traced_ok_current t Hok Ht) Hs).
Qed.

Lemma fold_trace_ok (sentences : list str) :
  Forall clean sentences ->
  traced_ok (fold_left tstep sentences trace_init).
Proof.
  intros H.
  apply (fold_left_invariant tstep traced_ok clean trace_step_ok);
    [exact H|exact traced_ok_init].
Qed.

Lemma covered_trace_step (t : traced) (sentence : str) :
  covered (tstep t sentence) = covered t ++ [sentence].
Proof.
  unfold covered, trace_step.
  destruct (seals chunk_size (real t) sentence);
    cbn [sealed opened e_fresh].
  - rewrite map_app, concat_app. cbn [map concat]. now rewrite app_nil_r.
  - now rewrite app_assoc.
Qed.

Lemma covered_fold (sentences : list str) (t : traced) :
  covered (fold_left tstep sentences t) = covered t ++ sentences.
Proof.
  revert t. induction sentences as [|s l IH]; intros t.
  - now rewrite app_nil_r.
  - simpl. rewrite IH, covered_trace_step. now rewrite <- app_assoc.
Qed.

Lemma chunk_finish_render (t : traced) :
  traced_ok t -> chunk_finish (real t) = map render (trace_finish t).
Proof.
  intros Hok. unfold chunk_finish, trace_finish.
  destruct (truthy (current_chunk (real t))) eqn:Ht.
  - rewrite map_app, (ok_chunks t Hok). cbn [map].
    rewrite (strip_clean_ends _ (traced_ok_current t Hok Ht)).
    now rewrite (ok_current t Hok).
  - exact (ok_chunks t Hok).
Qed.

Lemma trace_finish_covered (t : traced) :
  traced_ok t -> concat (map e_fresh (trace_finish t)) = covered t.
Proof.
  intros Hok. unfold trace_finish, covered.
  destruct (truthy (current_chunk (real t))) eqn:Ht.
  - rewrite map_app, concat_app. cbn [map concat]. now rewrite app_nil_r.
  - destruct (ok_opened t Hok) as [[Hf _] | [Hc _]].
    + now rewrite Hf, app_nil_r.
    + apply clean_ends_truthy in Hc. congruence.
Qed.

(** The chunks of the loop are the texts of the recorded chunks, and the
    sentences appended to the recorded chunks are the sentences given, in
    the order given. *)
Lemma chunk_loop_trace (sentences : list str) :
  Forall clean sentences ->
  chunk_finish (fold_left step sentences chunker_init) =
  map render (chunk_trace chunk_size chunk_overlap sentences)
  /\ concat (map e_fresh (chunk_trace chunk_size chunk_overlap sentences)) =
     sentences.
Proof.
  intros H. pose proof (fold_trace_ok sentences H) as Hok.
  unfold chunk_trace. split.
  - rewrite <- (chunk_finish_render _ Hok). now rewrite real_fold_trace.
  - rewrite (trace_finish_covered _ Hok), covered_fold. reflexivity.
Qed.

(** The walk over the reversed list stops after some of its elements and
    returns them in the original order, joined by single spaces in front of
    what it started with. *)
Lemma overlap_loop_join (prevs taken : list str) (chars : Z) :
  Forall clean prevs -> Forall clean taken ->
  exists n,
    overlap_loop chunk_overlap prevs (join (lit " ") taken) chars =
    join (lit " ") (rev (firstn n prevs) ++ taken).
Proof.
  revert taken chars. induction prevs as [|p prevs IH];
    intros taken chars Hprevs Htaken; [now exists 0|].
  inversion Hprevs as [|? ? Hp Hrest]; subst. cbn [overlap_loop].
  destruct (chars + len p <=? chunk_overlap)%Z; [|now exists 0].
  assert (E : (if truthy (join (lit " ") taken)
               then p ++ lit " " ++ join (lit " ") taken
               else p) = join (lit " ") (p :: taken)).
  { destruct taken as [|x taken']; [reflexivity|].
    inversion Htaken as [|? ? Hx _]; subst.
    apply clean_ends_truthy in Hx. destruct x as [|c x]; [discriminate|].
    now destruct taken'. }
  destruct (IH (p :: taken) (chars + len p)%Z Hrest) as [n Hn];
    [now constructor|].
  exists (S n). cbn [firstn rev]. rewrite <- app_assoc. cbn [app].
  rewrite <- Hn. f_equal. exact E.
Qed.

Lemma carried_overlap_join (st : chunker) :
  Forall clean (current_sentences st) ->
  exists k,
    overlap_of st = join (lit " ") (skipn k (current_sentences st)).
Proof.
  intros H. unfold carried_overlap.
  destruct ((0 <? chunk_overlap)%Z && truthy (current_sentences st)).
  - destruct (overlap_loop_join (rev (current_sentences st)) [] 0)
      as [n Hn]; [now apply Forall_rev|constructor|].
    exists (length (current_sentences st) - n).
    change (join (lit " ") []) with (@nil ascii) in Hn.
    rewrite Hn, app_nil_r, firstn_rev. now rewrite rev_involutive.
  - exists (length (current_sentences st)). now rewrite skipn_all.
Qed.

Lemma overlaps_carried_snoc (l : list entry) (e1 e2 : entry) :
  overlaps_carried (l ++ [e1]) -> carried_from e1 e2 ->
  overlaps_carried (l ++ [e1; e2]).
Proof.
  intros H H12. induction l as [|x l IH]; [simpl; tauto|].
  destruct l as [|y l]; simpl in *; tauto.
Qed.

Lemma overlaps_carried_same_overlap (l : list entry) (e e' : entry) :
  overlaps_carried (l ++ [e]) -> e_overlap e' = e_overlap e ->
  overlaps_carried (l ++ [e']).
Proof.
  intros H E. induction l as [|x l IH]; [simpl; tauto|].
  destruct l as [|y l].
  - simpl in *. unfold carried_from in *. rewrite E. tauto.
  - simpl in *. tauto.
Qed.

Lemma overlaps_carried_front (l : list entry) (e : entry) :
  overlaps_carried (l ++ [e]) -> overlaps_carried l.
Proof.
  induction l as [|x l IH]; [easy|].
  destruct l as [|y l]; simpl in *; tauto.
Qed.

Lemma linked_init : linked trace_init.
Proof. split; simpl; auto. Qed.

Lemma trace_step_linked (t : traced) (sentence : str) :
  traced_ok t /\ linked t -> clean sentence ->
  traced_ok (tstep t sentence) /\ linked (tstep t sentence).
Proof.
  intros [Hok [Hcar Hcur]] Hs.
  split; [now apply trace_step_ok|].
  unfold linked, trace_step.
  destruct (seals chunk_size (real t) sentence) eqn:Hseal;
    cbn [real sealed opened].
  - rewrite (chunk_step_seal _ _ Hseal). cbn [current_sentences].
    split.
    + rewrite <- app_assoc. apply overlaps_carried_snoc; [exact Hcar|].
      destruct (carried_overlap_join (real t) (ok_pieces t Hok)) as [k Hk].
      exists k. cbn [e_overlap]. now rewrite Hk, Hcur.
    + unfold pieces. cbn [e_overlap e_fresh].
      now destruct (overlap_of (real t)).
  - rewrite (chunk_step_append _ _ Hseal). cbn [current_sentences].
    split.
    + now apply (overlaps_carried_same_overlap _ (opened t)).
    + unfold pieces. cbn [e_overlap e_fresh].
      rewrite Hcur. unfold pieces. now rewrite app_assoc.
Qed.

Lemma chunk_trace_carried (sentences : list str) :
  Forall clean sentences ->
  overlaps_carried (chunk_trace chunk_size chunk_overlap sentences).
Proof.
  intros H.
  assert (G : traced_ok (fold_left tstep sentences trace_init)
              /\ linked (fold_left tstep sentences trace_init)).
  { apply (fold_left_invariant tstep (fun t => traced_ok t /\ linked t) clean
             trace_step_linked); [exact H|].
    split; [exact traced_ok_init|exact linked_init]. }
  destruct G as [_ [Hcar _]]. unfold chunk_trace, trace_finish.
  destruct (truthy (current_chunk (real (fold_left tstep sentences trace_init))));
    [exact Hcar|].
  exact (overlaps_carried_front _ _ Hcar).
Qed.

End Chunker.

(** ** The functions of the class, without their exceptions *)
Section Totality.

Variable sent_tokenize : str -> list str.
Variable chunk_size : Z.
Variable chunk_overlap : Z.

Lemma _split_into_sentences_scan (text : str) :
  _split_into_sentences sent_tokenize text =
  Ok (segment sent_tokenize text).
Proof. apply merge_abbreviations_scan. Qed.

Lemma segment_clean (text : str) :
  Forall clean (segment sent_tokenize text).
Proof.
  unfold segment. apply Forall_forall. intros s Hs.
  apply filter_In in Hs as [Hin Ht].
  pose proof (merge_scan_stripped token_ends_with_abbreviation
                (sent_tokenize text)) as H.
  rewrite Forall_forall in H. specialize (H s Hin).
  unfold clean. rewrite <- H. apply clean_ends_strip.
  rewrite H. now destruct s.
Qed.

Lemma _chunk_paragraph_chunks (paragraph : str) :
  _chunk_paragraph sent_tokenize chunk_size chunk_overlap paragraph =
  Ok (paragraph_chunks sent_tokenize chunk_size chunk_overlap paragraph).
Proof.
  unfold _chunk_paragraph, paragraph_chunks.
  destruct (len paragraph <=? chunk_size)%Z; [reflexivity|].
  now rewrite _split_into_sentences_scan.
Qed.

Lemma extend_chunks_concat (paragraphs all_chunks : list str) :
  extend_chunks sent_tokenize chunk_size chunk_overlap paragraphs all_chunks =
  Ok (all_chunks
      ++ concat (map (paragraph_chunks sent_tokenize chunk_size chunk_overlap)
                   paragraphs)).
Proof.
  revert all_chunks. induction paragraphs as [|p rest IH]; intros all_chunks.
  - simpl. now rewrite app_nil_r.
  - simpl. rewrite _chunk_paragraph_chunks. cbn [bind].
    rewrite IH. now rewrite <- app_assoc.
Qed.

Lemma split_text_concat (text : str) :
  split_text sent_tokenize chunk_size chunk_overlap text =
  Ok (concat (map (paragraph_chunks sent_tokenize chunk_size chunk_overlap)
                (_split_by_paragraphs text))).
Proof. unfold split_text. now rewrite extend_chunks_concat. Qed.

End Totality.

(** * The claims *)

Section FirstChunk.

Variable chunk_size : Z.
Variable chunk_overlap : Z.

Lemma trace_step_first (t : traced) (sentence : str) :
  first_plain t -> first_plain (trace_step chunk_size chunk_overlap t sentence).
Proof.
  unfold first_plain, trace_step.
  destruct (seals chunk_size (real t) sentence); cbn [sealed opened e_overlap].
  - now destruct (sealed t).
  - now destruct (sealed t).
Qed.

Lemma chunk_trace_first (sentences : list str) :
  match chunk_trace chunk_size chunk_overlap sentences with
  | e :: _ => e_overlap e = []
  | [] => True
  end.
Proof.
  unfold chunk_trace.
  assert (H : first_plain
                (fold_left (trace_step chunk_size chunk_overlap) sentences
                   trace_init)).
  { apply (fold_left_invariant _ first_plain (fun _ => True)).
    - intros a b Ha _. now apply trace_step_first.
    - now apply Forall_forall.
    - reflexivity. }
  revert H. generalize (fold_left (trace_step chunk_size chunk_overlap)
                          sentences trace_init).
  intros t. unfold first_plain, trace_finish.
  destruct (truthy (current_chunk (real t))); now destruct (sealed t).
Qed.

End FirstChunk.

(** C1 (the code breaks the claim).  Chunk size 20, overlap 10: the
    paragraph has two sentences of 10 and 17 characters, and the second
    chunk is the overlap, a space and the second sentence: 28 characters,
    two sentences, none of them longer than the chunk size. *)
Theorem chunk_longer_than_chunk_size :
  let paragraph := lit "Cats purr. Dogs bark loudly." in
  _split_into_sentences BaseTokenizer.sent_tokenize paragraph =
    Ok [lit "Cats purr."; lit "Dogs bark loudly."]
  /\ _chunk_paragraph BaseTokenizer.sent_tokenize 20 10 paragraph =
       Ok [lit "Cats purr."; lit "Cats purr. Dogs bark loudly."]
  /\ split_text BaseTokenizer.sent_tokenize 20 10 paragraph =
       Ok [lit "Cats purr."; lit "Cats purr. Dogs bark loudly."]
  /\ len (lit "Cats purr. Dogs bark loudly.") = 28%Z
  /\ len (lit "Dogs bark loudly.") = 17%Z.
Proof. vm_compute. repeat split. Qed.

(** C2 (the code breaks the claim).  Chunk size 55, overlap 22: the
    overlap carried into the second chunk is made of two sentences of 10
    and 12 characters and the space between them: 23 characters. *)
Theorem overlap_longer_than_chunk_overlap :
  let paragraph :=
    lit "The rain fell all day. We waited. Nobody came. Then the sun came out again." in
  _split_into_sentences BaseTokenizer.sent_tokenize paragraph =
    Ok [lit "The rain fell all day."; lit "We waited."; lit "Nobody came.";
        lit "Then the sun came out again."]
  /\ _chunk_paragraph BaseTokenizer.sent_tokenize 55 22 paragraph =
       Ok [lit "The rain fell all day. We waited. Nobody came.";
           lit "We waited. Nobody came. Then the sun came out again."]
  /\ map e_overlap
       (chunk_trace 55 22 (segment BaseTokenizer.sent_tokenize paragraph)) =
     [[]; lit "We waited. Nobody came."]
  /\ len (lit "We waited. Nobody came.") = 23%Z.
Proof. vm_compute. repeat split. Qed.

(** C3 (the code breaks the claim).  Chunk size 34, overlap 18: when the
    second chunk is sealed, the list walked in reverse holds the words of
    the first overlap, "It" and "hid.", and the overlap of the third chunk
    starts with "hid.", a part of the sentence "It hid.". *)
Theorem overlap_cuts_a_sentence :
  let paragraph := lit "The red fox ran. It hid. We saw it go. Then it left." in
  _split_into_sentences BaseTokenizer.sent_tokenize paragraph =
    Ok [lit "The red fox ran."; lit "It hid."; lit "We saw it go.";
        lit "Then it left."]
  /\ _chunk_paragraph BaseTokenizer.sent_tokenize 34 18 paragraph =
       Ok [lit "The red fox ran. It hid.";
           lit "It hid. We saw it go.";
           lit "hid. We saw it go. Then it left."]
  /\ map e_overlap
       (chunk_trace 34 18 (segment BaseTokenizer.sent_tokenize paragraph)) =
     [[]; lit "It hid."; lit "hid. We saw it go."].
Proof. vm_compute. repeat split. Qed.

(** C4.  A paragraph that fits the chunk size is its own single chunk.
    For a longer one the segmenter returns its sentences, every chunk is
    the text of a recorded chunk, that is its carried overlap, a space and
    the sentences appended after it, joined by spaces, and the appended
    sentences of all chunks, in order, are the sentences of the paragraph:
    none is left out, repeated or moved.  The first chunk has no overlap,
    and the overlap of every other chunk is made of trailing pieces of the
    chunk before it. *)
Theorem chunks_cover_the_sentences (sent_tokenize : str -> list str)
    (chunk_size chunk_overlap : Z) (paragraph : str) :
  if (len paragraph <=? chunk_size)%Z
  then _chunk_paragraph sent_tokenize chunk_size chunk_overlap paragraph =
       Ok [paragraph]
  else
    exists sentences,
      _split_into_sentences sent_tokenize paragraph = Ok sentences
      /\ (let trace := chunk_trace chunk_size chunk_overlap sentences in
          _chunk_paragraph sent_tokenize chunk_size chunk_overlap paragraph =
            Ok (map render trace)
          /\ concat (map e_fresh trace) = sentences
          /\ match trace with
             | e :: _ => e_overlap e = []
             | [] => True
             end
          /\ overlaps_carried trace).
Proof.
  rewrite _chunk_paragraph_chunks. unfold paragraph_chunks.
  destruct (len paragraph <=? chunk_size)%Z; [reflexivity|].
  exists (segment sent_tokenize paragraph).
  split; [apply _split_into_sentences_scan|].
  destruct (chunk_loop_trace chunk_size chunk_overlap
              (segment sent_tokenize paragraph)
              (segment_clean sent_tokenize paragraph)) as [Hr Hc].
  cbv zeta. split; [now rewrite Hr|]. split; [exact Hc|].
  split; [apply chunk_trace_first|].
  apply chunk_trace_carried, segment_clean.
Qed.

(** C5, as the code has it.  The pass after the base tokenization returns
    the scan of the sentences in which the current sentence absorbs the
    next one exactly when its trailing token ends with a known
    abbreviation and the next sentence, trimmed, starts with a lowercase
    character; the two are joined by one space, the scan resumes after the
    absorbed sentence, the last sentence is never merged, and the empty
    strings are dropped at the end.  The loop never raises. *)
Theorem abbreviation_merge_scan (sent_tokenize : str -> list str)
    (sentences : list str) (text : str) :
  merge_abbreviations sentences =
    Ok (filter (fun s => truthy s)
          (merge_scan token_ends_with_abbreviation sentences))
  /\ _split_into_sentences sent_tokenize text =
       Ok (filter (fun s => truthy s)
             (merge_scan token_ends_with_abbreviation (sent_tokenize text))).
Proof.
  split; [apply merge_abbreviations_scan|apply _split_into_sentences_scan].
Qed.

(** C5 as stated fails: "final." is not a known abbreviation, but it ends
    with "al.", and the sentence absorbs the next one. *)
Lemma final_is_taken_for_an_abbreviation :
  let sentences := [lit "It was final."; lit "and then we left."] in
  trailing_token (lit "It was final.") = lit "final."
  /\ existsb (str_eqb (lit "final.")) abbreviations = false
  /\ merge_abbreviations sentences = Ok [lit "It was final. and then we left."]
  /\ merge_abbreviations sentences <>
     Ok (filter (fun s => truthy s)
           (merge_scan token_is_abbreviation sentences)).
Proof. vm_compute. repeat split. discriminate. Qed.

(** The run of [_chunk_paragraph] with a tokenizer that never raises has
    the result of [_chunk_paragraph], and calls the tokenizer once, on the
    paragraph, exactly when the paragraph is longer than the chunk size. *)
Lemma _chunk_paragraph_run_refines (Exc : Type)
    (sent_tokenize : str -> list str) (chunk_size chunk_overlap : Z)
    (paragraph : str) :
  _chunk_paragraph_run Exc (fun text => inr (sent_tokenize text)) chunk_size
    chunk_overlap paragraph =
  (of_result (_chunk_paragraph sent_tokenize chunk_size chunk_overlap
                paragraph),
   if (len paragraph <=? chunk_size)%Z then [] else [paragraph]).
Proof.
  unfold _chunk_paragraph_run, _chunk_paragraph, _split_into_sentences_run,
    _split_into_sentences.
  destruct (len paragraph <=? chunk_size)%Z; [reflexivity|].
  destruct (merge_abbreviations (sent_tokenize paragraph)); reflexivity.
Qed.

(** A paragraph longer than the chunk size is given to the tokenizer, once,
    and an exception of the tokenizer leaves [_chunk_paragraph]. *)
Lemma long_paragraph_is_tokenized_once (Exc : Type)
    (sent_tokenize : str -> Exc + list str) (chunk_size chunk_overlap : Z)
    (paragraph : str) :
  (chunk_size < len paragraph)%Z ->
  snd (_chunk_paragraph_run Exc sent_tokenize chunk_size chunk_overlap
         paragraph) = [paragraph]
  /\ forall e,
       sent_tokenize paragraph = inl e ->
       fst (_chunk_paragraph_run Exc sent_tokenize chunk_size chunk_overlap
              paragraph) = inl (FromTokenizer e).
Proof.
  intros H. apply Z.leb_gt in H.
  unfold _chunk_paragraph_run, _split_into_sentences_run. rewrite H.
  destruct (sent_tokenize paragraph) as [e|sentences].
  - split; [reflexivity|]. intros e' E. now inversion E.
  - destruct (merge_abbreviations sentences); cbn; (split; [reflexivity|]);
      intros e' E; discriminate.
Qed.

(** C6.  A paragraph that fits the chunk size is returned as the only
    chunk, unchanged, and no sentence segmentation is performed: the run
    of [_chunk_paragraph] makes no call of the base tokenizer, so that it
    returns even with a tokenizer that raises on every text.  The value is
    the same in the embedding without the calls, whatever the tokenizer
    is. *)
Theorem short_paragraph_is_one_chunk (Exc : Type)
    (sent_tokenize : str -> Exc + list str)
    (total_tokenize : str -> list str) (chunk_size chunk_overlap : Z)
    (paragraph : str) :
  (len paragraph <= chunk_size)%Z ->
  _chunk_paragraph_run Exc sent_tokenize chunk_size chunk_overlap paragraph =
    (inr [paragraph], [])
  /\ _chunk_paragraph total_tokenize chunk_size chunk_overlap paragraph =
       Ok [paragraph].
Proof.
  intros H. unfold _chunk_paragraph_run, _chunk_paragraph.
  apply Z.leb_le in H. now rewrite H.
Qed.

Lemma short_paragraph_is_one_chunk_witness :
  (len (lit "Dr. Smith arrived. He left soon.") <= 1000)%Z
  /\ _chunk_paragraph_run unit (fun _ => inl tt) 1000 100
       (lit "Dr. Smith arrived. He left soon.") =
       (inr [lit "Dr. Smith arrived. He left soon."], [])
  /\ _chunk_paragraph BaseTokenizer.sent_tokenize 1000 100
       (lit "Dr. Smith arrived. He left soon.") =
     Ok [lit "Dr. Smith arrived. He left soon."].
Proof.
  assert (H : (len (lit "Dr. Smith arrived. He left soon.") <= 1000)%Z)
    by (vm_compute; discriminate).
  split; [exact H|].
  exact (short_paragraph_is_one_chunk unit (fun _ => inl tt)
           BaseTokenizer.sent_tokenize 1000 100
           (lit "Dr. Smith arrived. He left soon.") H).
Defined.

(** C7, as the code has it.  The splitter keeps exactly the candidate
    paragraphs whose trimmed length is greater than 20, in order, each
    with its white space collapsed: a candidate longer than 20 gives a
    paragraph of the output, and every paragraph of the output comes from
    a candidate longer than 20. *)
Theorem paragraphs_longer_than_20_are_kept (text : str) :
  _split_by_paragraphs text =
    map re_sub_spaces (filter long_enough (candidates text))
  /\ (forall c, In c (candidates text) -> (20 < len c)%Z ->
        In (re_sub_spaces c) (_split_by_paragraphs text))
  /\ (forall p, In p (_split_by_paragraphs text) ->
        exists c, In c (candidates text) /\ (20 < len c)%Z
                  /\ p = re_sub_spaces c).
Proof.
  pose proof (_split_by_paragraphs_filter text) as E.
  fold (candidates text) in E. split; [exact E|]. rewrite E. split.
  - intros c Hc Hlen. apply in_map, filter_In. split; [exact Hc|].
    now apply Z.ltb_lt.
  - intros p Hp. apply in_map_iff in Hp as (c & <- & Hc).
    apply filter_In in Hc as [Hc Hlen]. exists c.
    split; [exact Hc|]. split; [now apply Z.ltb_lt|reflexivity].
Qed.

Lemma paragraphs_longer_than_20_are_kept_witness :
  let text :=
    lit "First paragraph of the text." ++ blank_line ++ lit "  Short one.  "
    ++ blank_line ++ lit "Second   paragraph, long enough." in
  (In (lit "Second   paragraph, long enough.") (candidates text)
   /\ (20 < len (lit "Second   paragraph, long enough."))%Z
   /\ In (re_sub_spaces (lit "Second   paragraph, long enough."))
        (_split_by_paragraphs text))
  /\ (In (lit "First paragraph of the text.") (_split_by_paragraphs text)
      /\ exists c, In c (candidates text) /\ (20 < len c)%Z
                   /\ lit "First paragraph of the text." = re_sub_spaces c).
Proof.
  intros text.
  assert (H1 : In (lit "Second   paragraph, long enough.") (candidates text))
    by (vm_compute; tauto).
  assert (H2 : (20 < len (lit "Second   paragraph, long enough."))%Z)
    by reflexivity.
  assert (H3 : In (lit "First paragraph of the text.")
                 (_split_by_paragraphs text))
    by (vm_compute; tauto).
  destruct (paragraphs_longer_than_20_are_kept text) as (_ & Hkeep & Hfrom).
  split.
  - split; [exact H1|]. split; [exact H2|]. exact (Hkeep _ H1 H2).
  - split; [exact H3|]. exact (Hfrom _ H3).
Defined.

(** C7 as stated fails at the length 20: the only candidate has 20
    characters and the output is empty. *)
Lemma paragraph_of_20_is_dropped :
  let text := lit "Chapter One: Origins" in
  candidates text = [text]
  /\ len text = 20%Z
  /\ _split_by_paragraphs text = [].
Proof. vm_compute. repeat split. Qed.

(** C8.  [split_text] returns for every text: none of its loops runs out
    of fuel and no index is out of range.  For a text made of white space
    only, the empty text included, it returns no chunk. *)
Theorem split_text_returns (sent_tokenize : str -> list str)
    (chunk_size chunk_overlap : Z) (text : str) :
  (exists chunks,
      split_text sent_tokenize chunk_size chunk_overlap text = Ok chunks)
  /\ (forallb isspace text = true ->
      split_text sent_tokenize chunk_size chunk_overlap text = Ok []).
Proof.
  rewrite split_text_concat. split; [eauto|].
  intros H. unfold _split_by_paragraphs.
  now rewrite (strip_all_space text H).
Qed.

Lemma split_text_returns_witness :
  let text := lit "  " ++ blank_line ++ lit "   " in
  forallb isspace text = true
  /\ split_text BaseTokenizer.sent_tokenize 1000 100 text = Ok [].
Proof.
  intros text.
  assert (H : forallb isspace text = true) by reflexivity.
  split; [exact H|].
  exact (proj2 (split_text_returns BaseTokenizer.sent_tokenize 1000 100 text)
           H).
Defined.

(** C9, as the code has it.  Joining the returned paragraphs with blank
    lines and splitting again returns the paragraphs that are still longer
    than 20 characters, unchanged and in order; it returns all of them,
    the same sequence, when every returned paragraph is longer than 20
    characters. *)
Theorem resplit_keeps_the_long_paragraphs (text : str) :
  let paragraphs := _split_by_paragraphs text in
  _split_by_paragraphs (join blank_line paragraphs) =
    filter long_enough paragraphs
  /\ (forallb long_enough paragraphs = true ->
      _split_by_paragraphs (join blank_line paragraphs) = paragraphs).
Proof.
  intros paragraphs.
  pose proof (split_join_tidy paragraphs (_split_by_paragraphs_tidy text))
    as E.
  split; [exact E|]. intros Hall. rewrite E.
  rewrite forallb_forall in Hall.
  clear E. induction paragraphs as [|p ps IH]; [reflexivity|].
  simpl. rewrite (Hall p (or_introl eq_refl)). f_equal.
  apply IH. intros x Hx. apply Hall. now right.
Qed.

Lemma resplit_keeps_the_long_paragraphs_witness :
  let text :=
    lit "First paragraph of the text." ++ blank_line ++ lit "  Short one.  "
    ++ blank_line ++ lit "Second   paragraph, long enough." in
  forallb long_enough (_split_by_paragraphs text) = true
  /\ _split_by_paragraphs (join blank_line (_split_by_paragraphs text)) =
     _split_by_paragraphs text.
Proof.
  intros text.
  assert (H : forallb long_enough (_split_by_paragraphs text) = true)
    by reflexivity.
  split; [exact H|].
  exact (proj2 (resplit_keeps_the_long_paragraphs text) H).
Defined.

(** C9 as stated fails: the paragraph has 24 characters, 9 once its white
    space is collapsed, and the second splitting drops it. *)
Lemma resplit_drops_a_collapsed_paragraph :
  let text := lit "Total:                42" in
  _split_by_paragraphs text = [lit "Total: 42"]
  /\ _split_by_paragraphs (join blank_line (_split_by_paragraphs text)) = []
  /\ _split_by_paragraphs (join blank_line (_split_by_paragraphs text)) <>
     _split_by_paragraphs text.
Proof. vm_compute. repeat split. discriminate. Qed.

(** C10.  The chunks of a text are the chunks of its paragraphs, each
    paragraph chunked on its own from an empty accumulator, put one after
    the other in the order of the paragraphs. *)
Theorem split_text_chunks_each_paragraph (sent_tokenize : str -> list str)
    (chunk_size chunk_overlap : Z) (text : str) :
  exists per_paragraph,
    Forall2
      (fun paragraph paragraph_chunks =>
         _chunk_paragraph sent_tokenize chunk_size chunk_overlap paragraph =
         Ok paragraph_chunks)
      (_split_by_paragraphs text) per_paragraph
    /\ split_text sent_tokenize chunk_size chunk_overlap text =
       Ok (concat per_paragraph).
Proof.
  exists (map (paragraph_chunks sent_tokenize chunk_size chunk_overlap)
            (_split_by_paragraphs text)).
  split; [|apply split_text_concat].
  induction (_split_by_paragraphs text) as [|p ps IH]; simpl; constructor.
  - apply _chunk_paragraph_chunks.
  - exact IH.
Qed.

(** * Further properties of the splitter *)

(** ** Paragraphs *)
Section MoreParagraphs.

Lemma tidy_from_no_newline (s : str) (b : bool) :
  tidy_from b s = true -> no_newline s = true.
Proof.
  revert b. induction s as [|c r IH]; intros b H; [reflexivity|].
  cbn [tidy_from] in H. unfold no_newline. cbn [forallb].
  fold (no_newline r). destruct (isspace c) eqn:Hc.
  - apply andb_true_iff in H as [H Hr]. apply andb_true_iff in H as [Hsp _].
    apply Ascii.eqb_eq in Hsp. subst c. simpl. exact (IH true Hr).
  - rewrite (IH false H), andb_true_r.
    destruct (is_newline c) eqn:E; [|reflexivity].
    apply newline_isspace in E. congruence.
Qed.

Lemma tidy_from_only_spaces (s : str) (b : bool) :
  tidy_from b s = true ->
  forall c, In c s -> isspace c = true -> c = " "%char.
Proof.
  revert b. induction s as [|x r IH]; intros b H c Hin Hc; [easy|].
  cbn [tidy_from] in H. destruct Hin as [-> | Hin].
  - rewrite Hc in H. apply andb_true_iff in H as [H _].
    apply andb_true_iff in H as [H _]. now apply Ascii.eqb_eq in H.
  - destruct (isspace x).
    + apply andb_true_iff in H as [_ H]. exact (IH true H c Hin Hc).
    + exact (IH false H c Hin Hc).
Qed.

Lemma no_newline_app (a b : str) :
  no_newline (a ++ b) = no_newline a && no_newline b.
Proof. apply forallb_app. Qed.

Lemma no_newline_rev (s : str) : no_newline (rev s) = no_newline s.
Proof. apply forallb_rev. Qed.

Lemma no_newline_lstrip (s : str) :
  no_newline s = true -> no_newline (lstrip s) = true.
Proof.
  induction s as [|c r IH]; [easy|]. intros H. simpl.
  destruct (isspace c); [|exact H].
  apply IH. unfold no_newline in H. simpl in H.
  now apply andb_true_iff in H as [_ H].
Qed.

Lemma no_newline_strip (s : str) :
  no_newline s = true -> no_newline (strip s) = true.
Proof.
  intros H. unfold strip, rstrip.
  apply no_newline_lstrip. rewrite no_newline_rev.
  apply no_newline_lstrip. now rewrite no_newline_rev.
Qed.

Lemma re_split_from_no_newline (s cur : str) :
  no_newline s = true -> re_split_from 0 cur s = [rev cur ++ s].
Proof.
  revert cur. induction s as [|c r IH]; intros cur H.
  - simpl. now rewrite app_nil_r.
  - unfold no_newline in H. cbn [forallb] in H.
    apply andb_true_iff in H as [Hc Hr]. apply negb_true_iff in Hc.
    cbn [re_split_from match_blank_line]. rewrite Hc.
    rewrite (IH (c :: cur) Hr). simpl rev. now rewrite <- app_assoc.
Qed.

End MoreParagraphs.

(** X1.  Every paragraph that [_split_by_paragraphs] returns is not empty,
    has no white space at either end, has no white space inside other than
    single spaces (so no newline, no tab), and is left as it is by [strip]
    and by the collapsing of white space. *)
Theorem returned_paragraphs_are_normalized (text : str) :
  Forall
    (fun p =>
       p <> []
       /\ tidy p = true
       /\ strip p = p
       /\ re_sub_spaces p = p
       /\ no_newline p = true
       /\ forallb (fun c => negb (isspace c) || Ascii.eqb c " "%char) p = true)
    (_split_by_paragraphs text).
Proof.
  eapply Forall_impl; [|apply _split_by_paragraphs_tidy].
  intros p Hp. cbv beta in Hp.
  split; [now destruct p|]. split; [exact Hp|].
  split; [apply strip_clean_ends, tidy_clean_ends, Hp|].
  split; [apply tidy_re_sub_spaces, Hp|].
  split; [exact (tidy_from_no_newline p true Hp)|].
  apply forallb_forall. intros c Hc.
  destruct (isspace c) eqn:Hs; [|reflexivity].
  rewrite (tidy_from_only_spaces p true Hp c Hc Hs). reflexivity.
Qed.

(** X2.  A text without a newline is one candidate paragraph: the
    splitter returns it trimmed and with its white space collapsed when
    its trimmed length is greater than 20, and returns nothing
    otherwise. *)
Theorem text_without_newline_is_one_paragraph (text : str) :
  no_newline text = true ->
  _split_by_paragraphs text =
  if (20 <? len (strip text))%Z then [re_sub_spaces (strip text)] else [].
Proof.
  intros H. rewrite _split_by_paragraphs_filter.
  unfold re_split_blank_lines.
  rewrite (re_split_from_no_newline _ [] (no_newline_strip text H)).
  cbn [rev app map]. rewrite strip_idempotent. cbn [filter].
  unfold long_enough. now destruct (20 <? len (strip text))%Z.
Qed.

Lemma text_without_newline_is_one_paragraph_witness :
  no_newline (lit "  Total:                42  ") = true
  /\ _split_by_paragraphs (lit "  Total:                42  ") =
     [lit "Total: 42"].
Proof.
  assert (H : no_newline (lit "  Total:                42  ") = true)
    by reflexivity.
  split; [exact H|].
  exact (text_without_newline_is_one_paragraph _ H).
Defined.

(** ** Sentences *)
Section MoreSentences.

Lemma split_from_app_space (a b cur : str) (c : ascii) :
  isspace c = true ->
  split_from cur (a ++ c :: b) = split_from cur a ++ split_from [] b.
Proof.
  intros Hc. revert cur. induction a as [|x a IH]; intros cur.
  - cbn [app split_from]. rewrite Hc. now destruct cur.
  - cbn [app split_from]. destruct (isspace x).
    + destruct (truthy cur); rewrite IH; reflexivity.
    + apply IH.
Qed.

Lemma split_lstrip (s : str) : split (lstrip s) = split s.
Proof.
  unfold split. induction s as [|c r IH]; [reflexivity|].
  cbn [lstrip]. destruct (isspace c) eqn:Hc; [|reflexivity].
  rewrite IH. cbn [split_from]. now rewrite Hc.
Qed.

Lemma split_app_spaces (a w : str) :
  forallb isspace w = true -> split (a ++ w) = split a.
Proof.
  unfold split. destruct w as [|c w]; intros H; [now rewrite app_nil_r|].
  cbn [forallb] in H. apply andb_true_iff in H as [Hc Hw].
  rewrite (split_from_app_space a w [] c Hc).
  apply split_from_nil in Hw. rewrite Hw. apply app_nil_r.
Qed.

Lemma lstrip_spaces (s : str) :
  exists w, forallb isspace w = true /\ s = w ++ lstrip s.
Proof.
  induction s as [|c r (w & Hw & E)]; [now exists []|].
  cbn [lstrip]. destruct (isspace c) eqn:Hc.
  - exists (c :: w). cbn [forallb]. rewrite Hc, Hw. split; [reflexivity|].
    cbn [app]. now rewrite <- E.
  - now exists [].
Qed.

Lemma rstrip_spaces (s : str) :
  exists w, forallb isspace w = true /\ s = rstrip s ++ w.
Proof.
  destruct (lstrip_spaces (rev s)) as (w & Hw & E).
  exists (rev w). split; [now rewrite forallb_rev|].
  unfold rstrip. rewrite <- rev_app_distr, <- E. now rewrite rev_involutive.
Qed.

Lemma split_rstrip (s : str) : split (rstrip s) = split s.
Proof.
  destruct (rstrip_spaces s) as (w & Hw & E).
  rewrite E at 2. now rewrite (split_app_spaces _ w Hw).
Qed.

Lemma split_strip (s : str) : split (strip s) = split s.
Proof. unfold strip. now rewrite split_lstrip, split_rstrip. Qed.

Lemma split_joined (a b : str) :
  split (a ++ lit " " ++ b) = split a ++ split b.
Proof. exact (split_from_app_space a b [] " "%char eq_refl). Qed.

Lemma words_of_cons (s : str) (l : list str) :
  words_of (s :: l) = split s ++ words_of l.
Proof. reflexivity. Qed.

(** The scan keeps the words, whatever the merge condition is. *)
Lemma words_of_merge_scan (m : str -> str -> bool) (sentences : list str) :
  words_of (merge_scan m sentences) = words_of sentences.
Proof.
  assert (G : forall n sentences, length sentences <= n ->
              words_of (merge_scan m sentences) = words_of sentences).
  { clear sentences. induction n as [|n IH]; intros [|cur [|next rest]] Hn;
      simpl in Hn; try lia; try reflexivity.
    - cbn [merge_scan]. now rewrite !words_of_cons, split_strip.
    - rewrite merge_scan_pair.
      destruct (m cur next); rewrite !words_of_cons.
      + rewrite split_strip, split_joined, split_strip, IH by lia.
        now rewrite <- app_assoc.
      + rewrite split_strip, IH by (simpl; lia).
        now rewrite words_of_cons. }
  apply (G (length sentences)). lia.
Qed.

Lemma words_of_filter (l : list str) :
  words_of (filter (fun s => truthy s) l) = words_of l.
Proof.
  induction l as [|s l IH]; [reflexivity|]. cbn [filter].
  destruct s as [|c s]; cbn [truthy].
  - exact IH.
  - now rewrite !words_of_cons, IH.
Qed.

Lemma length_merge_scan (m : str -> str -> bool) (sentences : list str) :
  length (merge_scan m sentences) <= length sentences.
Proof.
  assert (G : forall n sentences, length sentences <= n ->
              length (merge_scan m sentences) <= length sentences).
  { clear sentences. induction n as [|n IH]; intros [|cur [|next rest]] Hn;
      simpl in Hn; try lia; try (simpl; lia).
    rewrite merge_scan_pair. destruct (m cur next); cbn [length].
    - specialize (IH rest). lia.
    - specialize (IH (next :: rest)). cbn [length] in IH. lia. }
  apply (G (length sentences)). lia.
Qed.

Lemma length_filter_le {A} (f : A -> bool) (l : list A) :
  length (filter f l) <= length l.
Proof.
  induction l as [|a l IH]; [reflexivity|]. cbn [filter].
  destruct (f a); simpl; lia.
Qed.

End MoreSentences.

(** X3.  [_split_into_sentences] returns, for every tokenizer and text,
    sentences that are not empty and have no white space at either end,
    and never more sentences than the base tokenizer gave. *)
Theorem returned_sentences_are_trimmed (sent_tokenize : str -> list str)
    (text : str) :
  exists sentences,
    _split_into_sentences sent_tokenize text = Ok sentences
    /\ Forall (fun s => s <> [] /\ strip s = s) sentences
    /\ length sentences <= length (sent_tokenize text).
Proof.
  exists (segment sent_tokenize text).
  split; [apply _split_into_sentences_scan|]. split.
  - eapply Forall_impl; [|apply segment_clean].
    intros s Hs. split; [now destruct s|now apply strip_clean_ends].
  - unfold segment.
    etransitivity; [apply length_filter_le|apply length_merge_scan].
Qed.

(** X4.  The abbreviation pass neither drops, adds nor moves a word: the
    words of the sentences that [_split_into_sentences] returns are the
    words of the base tokenization, in the same order. *)
Theorem segmenter_keeps_the_words (sent_tokenize : str -> list str)
    (text : str) :
  exists sentences,
    _split_into_sentences sent_tokenize text = Ok sentences
    /\ words_of sentences = words_of (sent_tokenize text).
Proof.
  exists (segment sent_tokenize text).
  split; [apply _split_into_sentences_scan|].
  unfold segment. now rewrite words_of_filter, words_of_merge_scan.
Qed.

(** ** Chunks *)
Section MoreChunks.

Variable chunk_size : Z.
Variable chunk_overlap : Z.

Local Abbreviation step := (chunk_step chunk_size chunk_overlap).
Local Abbreviation tstep := (trace_step chunk_size chunk_overlap).
Local Abbreviation overlap_of := (carried_overlap chunk_overlap).

Lemma len_app {A} (a b : list A) : len (a ++ b) = (len a + len b)%Z.
Proof. unfold len. rewrite length_app. lia. Qed.

Lemma len_clean (s : str) : clean s -> (1 <= len s)%Z.
Proof. destruct s; [discriminate|]. unfold len. simpl. lia. Qed.

Lemma total_len_app (a b : list str) :
  total_len (a ++ b) = (total_len a + total_len b)%Z.
Proof. induction a as [|x a IH]; simpl; [reflexivity|]. rewrite IH. lia. Qed.

Lemma total_len_rev (l : list str) : total_len (rev l) = total_len l.
Proof.
  induction l as [|x l IH]; [reflexivity|].
  simpl. rewrite total_len_app, IH. simpl. lia.
Qed.

Lemma len_join (l : list str) :
  l <> [] ->
  len (join (lit " ") l) = (total_len l + Z.of_nat (length l) - 1)%Z.
Proof.
  induction l as [|x l IH]; [easy|]. intros _.
  destruct l as [|y l].
  - simpl. lia.
  - change (join (lit " ") (x :: y :: l))
      with (x ++ lit " " ++ join (lit " ") (y :: l)).
    rewrite !len_app, IH by discriminate.
    change (len (lit " ")) with 1%Z.
    change (total_len (x :: y :: l)) with (len x + total_len (y :: l))%Z.
    change (length (x :: y :: l)) with (S (length (y :: l))). lia.
Qed.

Lemma count_le_total_len (l : list str) :
  Forall clean l -> (Z.of_nat (length l) <= total_len l)%Z.
Proof.
  induction 1 as [|x l Hx _ IH]; [reflexivity|].
  apply len_clean in Hx. simpl total_len. simpl length. lia.
Qed.

Lemma Forall_take {A} (P : A -> Prop) (n : nat) (l : list A) :
  Forall P l -> Forall P (firstn n l).
Proof.
  revert l. induction n as [|n IH]; intros l H; [constructor|].
  destruct H; simpl; constructor; auto.
Qed.

Lemma fold_trace_with (P : traced -> Prop) :
  P trace_init ->
  (forall t s, traced_ok t -> P t -> clean s -> P (tstep t s)) ->
  forall sentences, Forall clean sentences ->
    traced_ok (fold_left tstep sentences trace_init)
    /\ P (fold_left tstep sentences trace_init).
Proof.
  intros Hinit Hstep sentences Hs.
  apply (fold_left_invariant tstep (fun t => traced_ok t /\ P t) clean).
  - intros t s [Hok Hp] Hc. split; [now apply trace_step_ok|].
    now apply Hstep.
  - exact Hs.
  - split; [exact traced_ok_init|exact Hinit].
Qed.

Lemma traced_ok_fresh (t : traced) :
  traced_ok t -> truthy (current_chunk (real t)) = true ->
  e_fresh (opened t) <> [].
Proof.
  intros Hok Ht. destruct (ok_opened t Hok) as [[Hf Ho] | [_ H]]; [|exact H].
  pose proof (ok_current t Hok) as E. unfold render in E.
  rewrite Ho, Hf in E. simpl in E. rewrite E in Ht. discriminate.
Qed.

Lemma seals_truthy (st : chunker) (s : str) :
  seals chunk_size st s = true -> truthy (current_chunk st) = true.
Proof. unfold seals. intros H. now apply andb_true_iff in H as [_ ?]. Qed.

Lemma seals_too_long (st : chunker) (s : str) :
  seals chunk_size st s = true ->
  (chunk_size < len (current_chunk st ++ lit " " ++ s))%Z.
Proof.
  unfold seals. intros H. apply andb_true_iff in H as [H Ht].
  rewrite Ht in H. now apply Z.ltb_lt.
Qed.

(** *** Every recorded chunk has at least one appended sentence *)

Lemma trace_step_fresh (t : traced) (s : str) :
  traced_ok t -> Forall (fun e => e_fresh e <> []) (sealed t) -> clean s ->
  Forall (fun e => e_fresh e <> []) (sealed (tstep t s)).
Proof.
  intros Hok H _. unfold trace_step.
  destruct (seals chunk_size (real t) s) eqn:Hseal; cbn [sealed]; [|exact H].
  apply Forall_app. split; [exact H|]. constructor; [|constructor].
  apply (traced_ok_fresh t Hok), (seals_truthy _ _ Hseal).
Qed.

Lemma chunk_trace_fresh (sentences : list str) :
  Forall clean sentences ->
  Forall (fun e => e_fresh e <> [])
    (chunk_trace chunk_size chunk_overlap sentences).
Proof.
  intros Hs.
  destruct (fold_trace_with
              (fun t => Forall (fun e => e_fresh e <> []) (sealed t))
              (Forall_nil _) trace_step_fresh sentences Hs) as [Hok H].
  unfold chunk_trace, trace_finish.
  destruct (truthy (current_chunk (real (fold_left tstep sentences trace_init))))
    eqn:Ht; [|exact H].
  apply Forall_app. split; [exact H|]. constructor; [|constructor].
  now apply traced_ok_fresh.
Qed.

(** *** The size of the chunks *)

Lemma opened_within_size (t : traced) :
  traced_ok t -> sized chunk_size t ->
  truthy (current_chunk (real t)) = true ->
  within_size chunk_size (opened t).
Proof.
  intros Hok [_ [Hlen | Hone]] Ht.
  - left. now rewrite <- (ok_current t Hok).
  - right. pose proof (traced_ok_fresh t Hok Ht) as Hne.
    destruct (e_fresh (opened t)) as [|x [|y l]]; [easy|now exists x|].
    simpl in Hone. lia.
Qed.

Lemma trace_step_sized (t : traced) (s : str) :
  traced_ok t -> sized chunk_size t -> clean s ->
  sized chunk_size (tstep t s).
Proof.
  intros Hok Hsz _. unfold sized, trace_step.
  destruct (seals chunk_size (real t) s) eqn:Hseal;
    cbn [real sealed opened e_fresh].
  - split; [|right; simpl; lia].
    apply Forall_app. split; [exact (proj1 Hsz)|].
    constructor; [|constructor].
    apply (opened_within_size t Hok Hsz), (seals_truthy _ _ Hseal).
  - split; [exact (proj1 Hsz)|].
    rewrite (chunk_step_append _ _ _ _ Hseal). cbn [current_chunk].
    destruct (truthy (current_chunk (real t))) eqn:Ht.
    + left. unfold seals in Hseal. rewrite Ht, andb_true_r in Hseal.
      now apply Z.ltb_ge.
    + right. destruct (ok_opened t Hok) as [[Hf _] | [Hc _]].
      * rewrite Hf. simpl. lia.
      * apply clean_ends_truthy in Hc. congruence.
Qed.

Lemma sized_init : sized chunk_size trace_init.
Proof. split; [constructor|]. right. simpl. lia. Qed.

Lemma chunk_trace_sized (sentences : list str) :
  Forall clean sentences ->
  Forall (within_size chunk_size)
    (chunk_trace chunk_size chunk_overlap sentences).
Proof.
  intros Hs.
  destruct (fold_trace_with (sized chunk_size) sized_init trace_step_sized
              sentences Hs) as [Hok H].
  unfold chunk_trace, trace_finish.
  destruct (truthy (current_chunk (real (fold_left tstep sentences trace_init))))
    eqn:Ht; [|exact (proj1 H)].
  apply Forall_app. split; [exact (proj1 H)|]. constructor; [|constructor].
  now apply opened_within_size.
Qed.

End MoreChunks.

(** ** Overlaps *)
Section MoreOverlaps.

Variable chunk_size : Z.
Variable chunk_overlap : Z.

Local Abbreviation step := (chunk_step chunk_size chunk_overlap).
Local Abbreviation tstep := (trace_step chunk_size chunk_overlap).
Local Abbreviation overlap_of := (carried_overlap chunk_overlap).

(** The walk takes sentences only while their characters, added up, are
    within [chunk_overlap]. *)
Lemma overlap_loop_budget (prevs taken : list str) (chars : Z) :
  Forall clean prevs -> Forall clean taken ->
  exists n,
    overlap_loop chunk_overlap prevs (join (lit " ") taken) chars =
      join (lit " ") (rev (firstn n prevs) ++ taken)
    /\ (n = 0 \/ (chars + total_len (firstn n prevs) <= chunk_overlap)%Z).
Proof.
  revert taken chars. induction prevs as [|p prevs IH];
    intros taken chars Hprevs Htaken; [exists 0; now split; [|left]|].
  inversion Hprevs as [|? ? Hp Hrest]; subst. cbn [overlap_loop].
  destruct (chars + len p <=? chunk_overlap)%Z eqn:Hfit;
    [|exists 0; now split; [|left]].
  apply Z.leb_le in Hfit.
  assert (E : (if truthy (join (lit " ") taken)
               then p ++ lit " " ++ join (lit " ") taken
               else p) = join (lit " ") (p :: taken)).
  { destruct taken as [|x taken']; [reflexivity|].
    inversion Htaken as [|? ? Hx _]; subst.
    apply clean_ends_truthy in Hx. destruct x as [|c x]; [discriminate|].
    now destruct taken'. }
  destruct (IH (p :: taken) (chars + len p)%Z Hrest) as (n & Hn & Hb);
    [now constructor|].
  exists (S n). split.
  - cbn [firstn rev]. rewrite <- app_assoc. cbn [app].
    rewrite <- Hn. f_equal. exact E.
  - right. cbn [firstn]. simpl total_len.
    destruct Hb as [-> | Hb]; [simpl; lia|lia].
Qed.

Lemma carried_overlap_budget (st : chunker) :
  Forall clean (current_sentences st) ->
  overlap_of st = []
  \/ exists taken,
       Forall clean taken /\ taken <> []
       /\ overlap_of st = join (lit " ") taken
       /\ (total_len taken <= chunk_overlap)%Z.
Proof.
  intros H. unfold carried_overlap.
  destruct ((0 <? chunk_overlap)%Z && truthy (current_sentences st));
    [|now left].
  destruct (overlap_loop_budget (rev (current_sentences st)) [] 0)
    as (n & Hn & Hb); [now apply Forall_rev|constructor|].
  change (join (lit " ") []) with (@nil ascii) in Hn.
  rewrite app_nil_r in Hn.
  destruct (rev (firstn n (rev (current_sentences st)))) as [|x l] eqn:E.
  - left. exact Hn.
  - right. exists (x :: l).
    split; [rewrite <- E; apply Forall_rev, Forall_take;
            now apply Forall_rev|].
    split; [discriminate|]. split; [exact Hn|].
    rewrite <- E, total_len_rev. destruct Hb as [-> | Hb]; [|lia].
    simpl in E. discriminate.
Qed.

Lemma trace_step_budgeted (t : traced) (s : str) :
  traced_ok t -> budgeted chunk_overlap t -> clean s ->
  budgeted chunk_overlap (tstep t s).
Proof.
  intros Hok [Hsealed Hopen] _. unfold budgeted, trace_step.
  destruct (seals chunk_size (real t) s); cbn [sealed opened].
  - split.
    + apply Forall_app. split; [exact Hsealed|now constructor].
    + exact (carried_overlap_budget (real t) (ok_pieces t Hok)).
  - split; [exact Hsealed|exact Hopen].
Qed.

Lemma budgeted_init : budgeted chunk_overlap trace_init.
Proof. split; [constructor|now left]. Qed.

Lemma chunk_trace_budgeted (sentences : list str) :
  Forall clean sentences ->
  Forall (within_budget chunk_overlap)
    (chunk_trace chunk_size chunk_overlap sentences).
Proof.
  intros Hs.
  destruct (fold_trace_with chunk_size chunk_overlap
              (budgeted chunk_overlap) budgeted_init trace_step_budgeted
              sentences Hs) as [_ [Hsealed Hopen]].
  unfold chunk_trace, trace_finish.
  destruct (truthy (current_chunk (real (fold_left tstep sentences trace_init))));
    [|exact Hsealed].
  apply Forall_app. split; [exact Hsealed|now constructor].
Qed.

(** An overlap within the budget has fewer than twice [chunk_overlap]
    characters. *)
Lemma within_budget_len (e : entry) :
  within_budget chunk_overlap e ->
  (len (e_overlap e) <= Z.max 0 (2 * chunk_overlap - 1))%Z.
Proof.
  intros [E | (taken & Hc & Hne & E & Hb)]; rewrite E.
  - change (len (@nil ascii)) with 0%Z. lia.
  - rewrite (len_join taken Hne).
    pose proof (count_le_total_len taken Hc). lia.
Qed.

Lemma within_budget_disabled (e : entry) :
  (chunk_overlap <= 0)%Z -> within_budget chunk_overlap e ->
  e_overlap e = [].
Proof.
  intros Hco [E | (taken & Hc & Hne & _ & Hb)]; [exact E|].
  pose proof (count_le_total_len taken Hc).
  destruct taken; [easy|]. simpl length in *. lia.
Qed.

(** *** Chunks are closed only when the next sentence does not fit *)

Lemma closed_snoc (l : list entry) (e1 e2 : entry) (s : str) :
  closed_when_full chunk_size (l ++ [e1]) ->
  e_fresh e2 = [s] ->
  (chunk_size < len (render e1 ++ lit " " ++ s))%Z ->
  closed_when_full chunk_size (l ++ [e1; e2]).
Proof.
  intros H Hf Hlen. induction l as [|x l IH].
  - cbn. split; [|tauto]. now exists s, [].
  - destruct l as [|y l]; cbn in *; tauto.
Qed.

Lemma closed_appended (l : list entry) (e e' : entry) (s : str) :
  closed_when_full chunk_size (l ++ [e]) ->
  e_fresh e' = e_fresh e ++ [s] ->
  closed_when_full chunk_size (l ++ [e']).
Proof.
  intros H Hf. induction l as [|x l IH]; [cbn; tauto|].
  destruct l as [|y l].
  - cbn in *. destruct H as [(s0 & more & E & Hlen) _].
    split; [|tauto]. exists s0, (more ++ [s]).
    split; [now rewrite Hf, E|exact Hlen].
  - cbn in *. tauto.
Qed.

Lemma closed_front (l : list entry) (e : entry) :
  closed_when_full chunk_size (l ++ [e]) -> closed_when_full chunk_size l.
Proof.
  induction l as [|x l IH]; [easy|].
  destruct l as [|y l]; cbn in *; tauto.
Qed.

Lemma trace_step_closed (t : traced) (s : str) :
  traced_ok t ->
  closed_when_full chunk_size (sealed t ++ [opened t]) -> clean s ->
  closed_when_full chunk_size (sealed (tstep t s) ++ [opened (tstep t s)]).
Proof.
  intros Hok H _. unfold trace_step.
  destruct (seals chunk_size (real t) s) eqn:Hseal; cbn [sealed opened].
  - rewrite <- app_assoc.
    apply (closed_snoc (sealed t) (opened t)
             {| e_overlap := overlap_of (real t); e_fresh := [s] |} s H
             eq_refl).
    rewrite <- (ok_current t Hok). exact (seals_too_long _ _ _ Hseal).
  - now apply (closed_appended _ (opened t) _ s).
Qed.

Lemma chunk_trace_closed (sentences : list str) :
  Forall clean sentences ->
  closed_when_full chunk_size
    (chunk_trace chunk_size chunk_overlap sentences).
Proof.
  intros Hs.
  destruct (fold_trace_with chunk_size chunk_overlap
              (fun t => closed_when_full chunk_size (sealed t ++ [opened t]))
              (conj I I) trace_step_closed sentences Hs) as [_ H].
  unfold chunk_trace, trace_finish.
  destruct (truthy (current_chunk (real (fold_left tstep sentences trace_init))));
    [exact H|exact (closed_front _ _ H)].
Qed.

(** *** The chunks have clean ends *)

Lemma trace_step_chunks_clean (t : traced) (s : str) :
  traced_ok t -> Forall clean (chunks (real t)) -> clean s ->
  Forall clean (chunks (real (tstep t s))).
Proof.
  intros Hok H _. rewrite real_trace_step.
  destruct (seals chunk_size (real t) s) eqn:Hseal.
  - rewrite (chunk_step_seal _ _ _ _ Hseal). cbn [chunks].
    apply Forall_app. split; [exact H|]. constructor; [|constructor].
    pose proof (traced_ok_current t Hok (seals_truthy _ _ _ Hseal)) as Hc.
    now rewrite (strip_clean_ends _ Hc).
  - now rewrite (chunk_step_append _ _ _ _ Hseal).
Qed.

Lemma chunk_finish_clean (t : traced) :
  traced_ok t -> Forall clean (chunks (real t)) ->
  Forall clean (chunk_finish (real t)).
Proof.
  intros Hok H. unfold chunk_finish.
  destruct (truthy (current_chunk (real t))) eqn:Ht; [|exact H].
  apply Forall_app. split; [exact H|]. constructor; [|constructor].
  pose proof (traced_ok_current t Hok Ht) as Hc.
  now rewrite (strip_clean_ends _ Hc).
Qed.

Lemma chunk_loop_clean (sentences : list str) :
  Forall clean sentences ->
  Forall clean (chunk_finish (fold_left step sentences chunker_init)).
Proof.
  intros Hs.
  destruct (fold_trace_with chunk_size chunk_overlap
              (fun t => Forall clean (chunks (real t)))
              (Forall_nil _) trace_step_chunks_clean sentences Hs)
    as [Hok H].
  change chunker_init with (real trace_init).
  rewrite <- real_fold_trace. now apply chunk_finish_clean.
Qed.

End MoreOverlaps.

(** ** The chunks of a long paragraph *)
Section LongParagraph.

Variable sent_tokenize : str -> list str.
Variable chunk_size : Z.
Variable chunk_overlap : Z.

Lemma long_paragraph_trace (paragraph : str) :
  (chunk_size < len paragraph)%Z ->
  _split_into_sentences sent_tokenize paragraph =
    Ok (segment sent_tokenize paragraph)
  /\ _chunk_paragraph sent_tokenize chunk_size chunk_overlap paragraph =
       Ok (map render
             (chunk_trace chunk_size chunk_overlap
                (segment sent_tokenize paragraph))).
Proof.
  intros H. split; [apply _split_into_sentences_scan|].
  rewrite _chunk_paragraph_chunks. unfold paragraph_chunks.
  apply Z.leb_gt in H. rewrite H. f_equal.
  apply chunk_loop_trace, segment_clean.
Qed.

Lemma length_concat_nonempty {A} (groups : list (list A)) :
  Forall (fun g => g <> []) groups ->
  length groups <= length (concat groups).
Proof.
  induction 1 as [|g groups Hg _ IH]; [reflexivity|].
  simpl. rewrite length_app. destruct g; [easy|]. simpl. lia.
Qed.

Lemma paragraph_chunks_clean (paragraph : str) :
  clean paragraph ->
  Forall clean
    (paragraph_chunks sent_tokenize chunk_size chunk_overlap paragraph).
Proof.
  intros Hp. unfold paragraph_chunks.
  destruct (len paragraph <=? chunk_size)%Z; [now constructor|].
  apply chunk_loop_clean, segment_clean.
Qed.

End LongParagraph.

(** X5.  [split_text] never returns an empty chunk, nor a chunk with white
    space at either end, whatever the tokenizer, the chunk size and the
    overlap are. *)
Theorem chunks_are_never_empty (sent_tokenize : str -> list str)
    (chunk_size chunk_overlap : Z) (text : str) :
  exists chunks,
    split_text sent_tokenize chunk_size chunk_overlap text = Ok chunks
    /\ Forall (fun c => c <> [] /\ strip c = c) chunks.
Proof.
  eexists. split; [apply split_text_concat|].
  apply Forall_concat, Forall_map.
  eapply Forall_impl; [|apply _split_by_paragraphs_tidy].
  intros p Hp. cbv beta in Hp.
  eapply Forall_impl;
    [|apply paragraph_chunks_clean, tidy_clean_ends, Hp].
  intros c Hc. split; [now destruct c|now apply strip_clean_ends].
Qed.

(** X6.  In a paragraph longer than the chunk size, a chunk is longer than
    the chunk size only when exactly one sentence was appended after its
    overlap: every chunk to which a second sentence was appended has at
    most [chunk_size] characters. *)
Theorem chunk_with_two_sentences_fits (sent_tokenize : str -> list str)
    (chunk_size chunk_overlap : Z) (paragraph : str) :
  (chunk_size < len paragraph)%Z ->
  exists sentences,
    _split_into_sentences sent_tokenize paragraph = Ok sentences
    /\ (let trace := chunk_trace chunk_size chunk_overlap sentences in
        _chunk_paragraph sent_tokenize chunk_size chunk_overlap paragraph =
          Ok (map render trace)
        /\ Forall
             (fun e =>
                (len (render e) <= chunk_size)%Z \/ exists s, e_fresh e = [s])
             trace).
Proof.
  intros H. exists (segment sent_tokenize paragraph).
  destruct (long_paragraph_trace sent_tokenize chunk_size chunk_overlap
              paragraph H) as [Hs Hc].
  split; [exact Hs|]. cbv zeta. split; [exact Hc|].
  apply chunk_trace_sized, segment_clean.
Qed.

Lemma chunk_with_two_sentences_fits_witness :
  let paragraph := lit "The red fox ran. It hid. We saw it go. Then it left." in
  (34 < len paragraph)%Z
  /\ exists sentences,
       _split_into_sentences BaseTokenizer.sent_tokenize paragraph =
         Ok sentences
       /\ (let trace := chunk_trace 34 18 sentences in
           _chunk_paragraph BaseTokenizer.sent_tokenize 34 18 paragraph =
             Ok (map render trace)
           /\ Forall
                (fun e => (len (render e) <= 34)%Z \/ exists s, e_fresh e = [s])
                trace).
Proof.
  intros paragraph.
  assert (H : (34 < len paragraph)%Z) by reflexivity.
  split; [exact H|].
  exact (chunk_with_two_sentences_fits BaseTokenizer.sent_tokenize 34 18
           paragraph H).
Defined.

(** X7.  The overlap carried into a chunk is empty, or is made of pieces
    joined by single spaces whose characters, the joining spaces not
    counted, are at most [chunk_overlap]; its length is therefore below
    twice [chunk_overlap]. *)
Theorem overlap_is_within_budget (sent_tokenize : str -> list str)
    (chunk_size chunk_overlap : Z) (paragraph : str) :
  (chunk_size < len paragraph)%Z ->
  exists sentences,
    _split_into_sentences sent_tokenize paragraph = Ok sentences
    /\ (let trace := chunk_trace chunk_size chunk_overlap sentences in
        _chunk_paragraph sent_tokenize chunk_size chunk_overlap paragraph =
          Ok (map render trace)
        /\ Forall
             (fun e =>
                (e_overlap e = []
                 \/ exists taken,
                      taken <> []
                      /\ e_overlap e = join (lit " ") taken
                      /\ (total_len taken <= chunk_overlap)%Z)
                /\ (len (e_overlap e) <= Z.max 0 (2 * chunk_overlap - 1))%Z)
             trace).
Proof.
  intros H. exists (segment sent_tokenize paragraph).
  destruct (long_paragraph_trace sent_tokenize chunk_size chunk_overlap
              paragraph H) as [Hs Hc].
  split; [exact Hs|]. cbv zeta. split; [exact Hc|].
  eapply Forall_impl;
    [|apply chunk_trace_budgeted, segment_clean].
  intros e He. split; [|now apply within_budget_len].
  destruct He as [E | (taken & _ & Hne & E & Hb)]; [now left|].
  right. now exists taken.
Qed.

Lemma overlap_is_within_budget_witness :
  let paragraph :=
    lit "The rain fell all day. We waited. Nobody came. Then the sun came out again." in
  (55 < len paragraph)%Z
  /\ exists sentences,
       _split_into_sentences BaseTokenizer.sent_tokenize paragraph =
         Ok sentences
       /\ (let trace := chunk_trace 55 22 sentences in
           _chunk_paragraph BaseTokenizer.sent_tokenize 55 22 paragraph =
             Ok (map render trace)
           /\ Forall
                (fun e =>
                   (e_overlap e = []
                    \/ exists taken,
                         taken <> []
                         /\ e_overlap e = join (lit " ") taken
                         /\ (total_len taken <= 22)%Z)
                   /\ (len (e_overlap e) <= Z.max 0 (2 * 22 - 1))%Z)
                trace).
Proof.
  intros paragraph.
  assert (H : (55 < len paragraph)%Z) by reflexivity.
  split; [exact H|].
  exact (overlap_is_within_budget BaseTokenizer.sent_tokenize 55 22
           paragraph H).
Defined.

(** X8.  With an overlap of zero (or below), the chunks of a paragraph
    longer than the chunk size are the sentences cut into consecutive
    groups, each group joined by single spaces: nothing is repeated, and
    every group of two sentences or more has at most [chunk_size]
    characters. *)
Theorem without_overlap_chunks_partition (sent_tokenize : str -> list str)
    (chunk_size chunk_overlap : Z) (paragraph : str) :
  (chunk_overlap <= 0)%Z ->
  (chunk_size < len paragraph)%Z ->
  exists sentences groups,
    _split_into_sentences sent_tokenize paragraph = Ok sentences
    /\ _chunk_paragraph sent_tokenize chunk_size chunk_overlap paragraph =
         Ok (map (join (lit " ")) groups)
    /\ concat groups = sentences
    /\ Forall
         (fun g =>
            (len (join (lit " ") g) <= chunk_size)%Z \/ exists s, g = [s])
         groups.
Proof.
  intros Hco H.
  set (sentences := segment sent_tokenize paragraph).
  set (trace := chunk_trace chunk_size chunk_overlap sentences).
  assert (Hclean : Forall clean sentences) by apply segment_clean.
  assert (Hplain : Forall (fun e => e_overlap e = []) trace).
  { eapply Forall_impl;
      [|apply (chunk_trace_budgeted chunk_size chunk_overlap _ Hclean)].
    intros e. now apply within_budget_disabled. }
  exists sentences, (map e_fresh trace).
  destruct (long_paragraph_trace sent_tokenize chunk_size chunk_overlap
              paragraph H) as [Hs Hc].
  split; [exact Hs|]. split; [|split].
  - rewrite Hc. f_equal. rewrite map_map. apply map_ext_in.
    intros e He. rewrite Forall_forall in Hplain.
    unfold render. now rewrite (Hplain e He).
  - exact (proj2 (chunk_loop_trace chunk_size chunk_overlap _ Hclean)).
  - apply Forall_map.
    pose proof (chunk_trace_sized chunk_size chunk_overlap _ Hclean) as Hsz.
    fold trace in Hsz. rewrite Forall_forall in *.
    intros e He. destruct (Hsz e He) as [Hlen | Hone]; [|now right].
    left. unfold render in Hlen. now rewrite (Hplain e He) in Hlen.
Qed.

Lemma without_overlap_chunks_partition_witness :
  let paragraph := lit "The red fox ran. It hid. We saw it go. Then it left." in
  (0 <= 0)%Z /\ (34 < len paragraph)%Z
  /\ exists sentences groups,
       _split_into_sentences BaseTokenizer.sent_tokenize paragraph =
         Ok sentences
       /\ _chunk_paragraph BaseTokenizer.sent_tokenize 34 0 paragraph =
            Ok (map (join (lit " ")) groups)
       /\ concat groups = sentences
       /\ Forall
            (fun g => (len (join (lit " ") g) <= 34)%Z \/ exists s, g = [s])
            groups.
Proof.
  intros paragraph.
  assert (H0 : (0 <= 0)%Z) by lia.
  assert (H : (34 < len paragraph)%Z) by reflexivity.
  split; [exact H0|]. split; [exact H|].
  exact (without_overlap_chunks_partition BaseTokenizer.sent_tokenize 34 0
           paragraph H0 H).
Defined.

(** X9.  A paragraph longer than the chunk size gives at most as many
    chunks as it has sentences, and gives no chunk only when the segmenter
    returns no sentence. *)
Theorem chunk_count_is_bounded (sent_tokenize : str -> list str)
    (chunk_size chunk_overlap : Z) (paragraph : str) :
  (chunk_size < len paragraph)%Z ->
  exists sentences chunks,
    _split_into_sentences sent_tokenize paragraph = Ok sentences
    /\ _chunk_paragraph sent_tokenize chunk_size chunk_overlap paragraph =
         Ok chunks
    /\ length chunks <= length sentences
    /\ (chunks = [] <-> sentences = []).
Proof.
  intros H.
  set (sentences := segment sent_tokenize paragraph).
  set (trace := chunk_trace chunk_size chunk_overlap sentences).
  assert (Hclean : Forall clean sentences) by apply segment_clean.
  destruct (long_paragraph_trace sent_tokenize chunk_size chunk_overlap
              paragraph H) as [Hs Hc].
  pose proof (proj2 (chunk_loop_trace chunk_size chunk_overlap _ Hclean))
    as Hcover.
  pose proof (chunk_trace_fresh chunk_size chunk_overlap _ Hclean) as Hfresh.
  fold trace in Hcover, Hfresh.
  exists sentences, (map render trace).
  split; [exact Hs|]. split; [exact Hc|]. split.
  - rewrite length_map, <- Hcover, <- (length_map e_fresh trace).
    apply length_concat_nonempty. now apply Forall_map.
  - split.
    + intros E. destruct trace; [now rewrite <- Hcover|discriminate].
    + intros E. rewrite E in Hcover.
      destruct trace as [|e trace']; [reflexivity|].
      inversion Hfresh as [|? ? He _]; subst.
      simpl in Hcover. apply app_eq_nil in Hcover as [Hcover _]. easy.
Qed.

Lemma chunk_count_is_bounded_witness :
  let paragraph := lit "The red fox ran. It hid. We saw it go. Then it left." in
  (34 < len paragraph)%Z
  /\ exists sentences chunks,
       _split_into_sentences BaseTokenizer.sent_tokenize paragraph =
         Ok sentences
       /\ _chunk_paragraph BaseTokenizer.sent_tokenize 34 18 paragraph =
            Ok chunks
       /\ length chunks <= length sentences
       /\ (chunks = [] <-> sentences = []).
Proof.
  intros paragraph.
  assert (H : (34 < len paragraph)%Z) by reflexivity.
  split; [exact H|].
  exact (chunk_count_is_bounded BaseTokenizer.sent_tokenize 34 18
           paragraph H).
Defined.

(** X10.  The overlap carried into the second chunk of a paragraph is made
    of whole trailing sentences of the first chunk, joined by single
    spaces (none of them when it is empty). *)
Theorem second_chunk_overlap_is_whole_sentences
    (sent_tokenize : str -> list str) (chunk_size chunk_overlap : Z)
    (paragraph : str) :
  (chunk_size < len paragraph)%Z ->
  exists sentences,
    _split_into_sentences sent_tokenize paragraph = Ok sentences
    /\ (let trace := chunk_trace chunk_size chunk_overlap sentences in
        _chunk_paragraph sent_tokenize chunk_size chunk_overlap paragraph =
          Ok (map render trace)
        /\ match trace with
           | e1 :: e2 :: _ =>
               render e1 = join (lit " ") (e_fresh e1)
               /\ exists k,
                    e_overlap e2 = join (lit " ") (skipn k (e_fresh e1))
           | _ => True
           end).
Proof.
  intros H. exists (segment sent_tokenize paragraph).
  destruct (long_paragraph_trace sent_tokenize chunk_size chunk_overlap
              paragraph H) as [Hs Hc].
  split; [exact Hs|]. cbv zeta. split; [exact Hc|].
  pose proof (chunk_trace_first chunk_size chunk_overlap
                (segment sent_tokenize paragraph)) as Hfirst.
  pose proof (chunk_trace_carried chunk_size chunk_overlap _
                (segment_clean sent_tokenize paragraph)) as Hcar.
  destruct (chunk_trace chunk_size chunk_overlap
              (segment sent_tokenize paragraph)) as [|e1 [|e2 rest]];
    try exact I.
  cbn in Hcar. destruct Hcar as [[k Hk] _].
  split; [unfold render; now rewrite Hfirst|].
  exists k. unfold pieces in Hk. now rewrite Hfirst in Hk.
Qed.

Lemma second_chunk_overlap_is_whole_sentences_witness :
  let paragraph := lit "The red fox ran. It hid. We saw it go. Then it left." in
  (34 < len paragraph)%Z
  /\ exists sentences,
       _split_into_sentences BaseTokenizer.sent_tokenize paragraph =
         Ok sentences
       /\ (let trace := chunk_trace 34 18 sentences in
           _chunk_paragraph BaseTokenizer.sent_tokenize 34 18 paragraph =
             Ok (map render trace)
           /\ match trace with
              | e1 :: e2 :: _ =>
                  render e1 = join (lit " ") (e_fresh e1)
                  /\ exists k,
                       e_overlap e2 = join (lit " ") (skipn k (e_fresh e1))
              | _ => True
              end).
Proof.
  intros paragraph.
  assert (H : (34 < len paragraph)%Z) by reflexivity.
  split; [exact H|].
  exact (second_chunk_overlap_is_whole_sentences BaseTokenizer.sent_tokenize
           34 18 paragraph H).
Defined.

(** X11.  The packing is greedy: a chunk is closed only when the next
    sentence does not fit, that is when the chunk, a space and the first
    sentence appended to the following chunk are longer than the chunk
    size. *)
Theorem chunks_are_closed_when_full (sent_tokenize : str -> list str)
    (chunk_size chunk_overlap : Z) (paragraph : str) :
  (chunk_size < len paragraph)%Z ->
  exists sentences,
    _split_into_sentences sent_tokenize paragraph = Ok sentences
    /\ (let trace := chunk_trace chunk_size chunk_overlap sentences in
        _chunk_paragraph sent_tokenize chunk_size chunk_overlap paragraph =
          Ok (map render trace)
        /\ closed_when_full chunk_size trace).
Proof.
  intros H. exists (segment sent_tokenize paragraph).
  destruct (long_paragraph_trace sent_tokenize chunk_size chunk_overlap
              paragraph H) as [Hs Hc].
  split; [exact Hs|]. cbv zeta. split; [exact Hc|].
  apply chunk_trace_closed, segment_clean.
Qed.

Lemma chunks_are_closed_when_full_witness :
  let paragraph := lit "The red fox ran. It hid. We saw it go. Then it left." in
  (34 < len paragraph)%Z
  /\ exists sentences,
       _split_into_sentences BaseTokenizer.sent_tokenize paragraph =
         Ok sentences
       /\ (let trace := chunk_trace 34 18 sentences in
           _chunk_paragraph BaseTokenizer.sent_tokenize 34 18 paragraph =
             Ok (map render trace)
           /\ closed_when_full 34 trace).
Proof.
  intros paragraph.
  assert (H : (34 < len paragraph)%Z) by reflexivity.
  split; [exact H|].
  exact (chunks_are_closed_when_full BaseTokenizer.sent_tokenize 34 18
           paragraph H).
Defined.

(** * Properties of [process_document] *)

(** ** Chunk identifiers *)
Section ChunkIds.

Lemma string_of_uint_digits (d : Decimal.uint) :
  forallb is_digit
    (list_ascii_of_string (DecimalString.NilEmpty.string_of_uint d)) = true.
Proof. induction d; simpl; auto. Qed.

Lemma str_of_nat_digits (n : nat) : forallb is_digit (str_of_nat n) = true.
Proof. apply string_of_uint_digits. Qed.

Lemma str_of_nat_inj (n m : nat) : str_of_nat n = str_of_nat m -> n = m.
Proof.
  unfold str_of_nat, lit. intros H.
  apply (f_equal string_of_list_ascii) in H.
  rewrite !string_of_list_ascii_of_string in H.
  apply DecimalNat.Unsigned.to_uint_inj.
  assert (E : Some (Nat.to_uint n) = Some (Nat.to_uint m)).
  { rewrite <- !DecimalString.NilEmpty.usu. now rewrite H. }
  now inversion E.
Qed.

Lemma split_at_first {A} (c : A) (x x' y y' : list A) :
  x ++ c :: y = x' ++ c :: y' -> ~ In c x -> ~ In c x' ->
  x = x' /\ y = y'.
Proof.
  revert x'. induction x as [|a x IH]; intros [|a' x'] E Hx Hx'.
  - simpl in E. now inversion E.
  - simpl in E. inversion E; subst. exfalso. apply Hx'. now left.
  - simpl in E. inversion E; subst. exfalso. apply Hx. now left.
  - simpl in E. inversion E; subst.
    destruct (IH x' H1) as [-> ->].
    + intros H. apply Hx. now right.
    + intros H. apply Hx'. now right.
    + now split.
Qed.

Lemma underscore_not_digit (d : str) :
  forallb is_digit d = true -> ~ In "_"%char (rev d).
Proof.
  intros H Hin. apply in_rev in Hin.
  rewrite forallb_forall in H. specialize (H _ Hin). discriminate.
Qed.

End ChunkIds.

(** X12.  The identifier [f"{filename}_{i}"] of a chunk determines the
    file name and the index: two chunks have the same identifier only when
    they have the same file name and the same index. *)
Theorem chunk_id_determines_file_and_index (f1 f2 : str) (i1 i2 : nat) :
  chunk_id f1 i1 = chunk_id f2 i2 -> f1 = f2 /\ i1 = i2.
Proof.
  unfold chunk_id. intros E.
  apply (f_equal (@rev ascii)) in E.
  rewrite !rev_app_distr in E. rewrite <- !app_assoc in E.
  change (rev (lit "_")) with ["_"%char] in E. cbn [app] in E.
  apply split_at_first in E as [Hd Hf];
    try (apply underscore_not_digit, str_of_nat_digits).
  split.
  - rewrite <- (rev_involutive f1), <- (rev_involutive f2). now rewrite Hf.
  - apply str_of_nat_inj.
    rewrite <- (rev_involutive (str_of_nat i1)),
            <- (rev_involutive (str_of_nat i2)).
    now rewrite Hd.
Qed.

Lemma chunk_id_determines_file_and_index_witness :
  chunk_id (lit "notes_2.txt") 10 = chunk_id (lit "notes_2.txt") 10
  /\ lit "notes_2.txt" = lit "notes_2.txt" /\ 10 = 10.
Proof.
  assert (H : chunk_id (lit "notes_2.txt") 10 = chunk_id (lit "notes_2.txt") 10)
    by reflexivity.
  split; [exact H|].
  exact (chunk_id_determines_file_and_index _ _ _ _ H).
Defined.

(** ** The calls of [process_document] *)
Section ProcessDocument.

Variable sent_tokenize : str -> list str.
Variable Exc : Type.
Variable str_of_exc : Exc -> str.
Variable exc_of_splitter : exn -> Exc.
Variable bytes : Type.
Variable embedding : Type.
Variable extract_text : bytes -> str -> Exc + str.
Variable s3_client : bool.
Variable raises :
  list (call bytes embedding) -> call bytes embedding -> option Exc.
Variable created_embedding : list (call bytes embedding) -> str -> embedding.

Local Abbreviation calls := (list (call bytes embedding)).
Local Abbreviation store_chunk' :=
  (store_chunk raises created_embedding).

Lemma embedding_inputs_app (a b : calls) :
  embedding_inputs (a ++ b) = embedding_inputs a ++ embedding_inputs b.
Proof.
  induction a as [|c a IH]; [reflexivity|].
  destruct c; simpl; now rewrite IH.
Qed.

Lemma added_indices_app (a b : calls) :
  added_indices (a ++ b) = added_indices a ++ added_indices b.
Proof.
  induction a as [|c a IH]; [reflexivity|].
  destruct c; simpl; now rewrite IH.
Qed.

Lemma store_original_text_calls (text filename : str) (log : calls) :
  exists rest,
    store_original_text raises text filename log =
      log ++ GetOrCreateCollection (lit "original_texts")
             :: rest
    /\ Forall (fun c => is_chunk_call c = false)
         (GetOrCreateCollection (lit "original_texts")
          :: rest).
Proof.
  unfold store_original_text, attempt.
  destruct (raises log _).
  - exists []. split; [reflexivity|]. now constructor.
  - eexists [_]. cbn [snd]. rewrite <- app_assoc. split; [reflexivity|].
    repeat constructor.
Qed.

(** The calls made before the chunks are stored: the original text, then
    the upload when S3 is configured. *)
Lemma before_chunks_calls (file_content : bytes) (text filename : str)
    (log : calls) :
  exists rest,
    (let log := store_original_text raises text filename
                  log in
     if s3_client
     then snd (attempt raises log
                 (PutObject (lit "documents/" ++ filename)
                    file_content filename))
     else log) =
      log ++ GetOrCreateCollection (lit "original_texts")
             :: rest
    /\ Forall (fun c => is_chunk_call c = false)
         (GetOrCreateCollection (lit "original_texts")
          :: rest).
Proof.
  destruct (store_original_text_calls text filename log) as (rest & E & H).
  cbv zeta. rewrite E. destruct s3_client.
  - eexists (rest ++ [_]). unfold attempt. cbn [snd].
    rewrite <- app_assoc. split; [reflexivity|].
    rewrite app_comm_cons. apply Forall_app. split; [exact H|].
    repeat constructor.
  - now exists rest.
Qed.

(** The loop over the chunks, started at index [length done]. *)
Lemma store_chunks_calls (filename : str) (todo done : list str)
    (log : calls) :
  exists new,
    fold_left (store_chunk' filename (length (done ++ todo)))
      (combine (seq (length done) (length todo)) todo) log = log ++ new
    /\ embedding_inputs new = map (firstn 8191) todo
    /\ Forall (describes filename (done ++ todo)) new
    /\ Forall (fun i => length done <= i) (added_indices new)
    /\ Sorted.StronglySorted lt (added_indices new).
Proof.
  revert done log. induction todo as [|x todo IH]; intros done log.
  - exists []. cbn. rewrite app_nil_r. repeat split; constructor.
  - assert (Hlen : length (done ++ [x]) = S (length done))
      by (rewrite length_app; simpl; lia).
    assert (Happ : (done ++ [x]) ++ todo = done ++ x :: todo)
      by (now rewrite <- app_assoc).
    destruct (IH (done ++ [x])
                (store_chunk' filename (length (done ++ x :: todo)) log
                   (length done, x)))
      as (new & E & Hin & Hd & Hge & Hs).
    rewrite Happ, Hlen in E. rewrite Happ in Hd. rewrite Hlen in Hge.
    cbn [length seq combine fold_left]. rewrite E. clear E IH.
    assert (Hx : nth_error (done ++ x :: todo) (length done) = Some x).
    { rewrite nth_error_app2, Nat.sub_diag by lia. reflexivity. }
    unfold store_chunk at 1, get_embedding, attempt.
    destruct (raises log _).
    + eexists (_ :: new). rewrite <- app_assoc. split; [reflexivity|].
      cbn [embedding_inputs added_indices map].
      split; [now rewrite Hin|]. split; [now constructor|].
      split; [|exact Hs].
      eapply Forall_impl; [|exact Hge]. intros i. cbv beta. lia.
    + cbn [snd]. eexists (_ :: _ :: new). rewrite <- !app_assoc.
      split; [reflexivity|].
      cbn [embedding_inputs added_indices map].
      split; [now rewrite Hin|]. split.
      * constructor; [exact I|]. constructor; [|exact Hd].
        cbn. now repeat split.
      * split.
        -- constructor; [lia|].
           eapply Forall_impl; [|exact Hge]. intros i. cbv beta. lia.
        -- constructor; [exact Hs|].
           eapply Forall_impl; [|exact Hge]. intros i. cbv beta. lia.
Qed.

Lemma blank_text_has_no_chunk (chunk_size chunk_overlap : Z) (text : str) :
  strip text = [] ->
  split_text sent_tokenize chunk_size chunk_overlap text = Ok [].
Proof.
  intros H. rewrite split_text_concat. unfold _split_by_paragraphs.
  now rewrite H.
Qed.

Lemma short_candidates_have_no_chunk (chunk_size chunk_overlap : Z)
    (text : str) :
  Forall (fun c => (len c <= 20)%Z) (candidates text) ->
  split_text sent_tokenize chunk_size chunk_overlap text = Ok [].
Proof.
  intros H. rewrite split_text_concat, _split_by_paragraphs_filter.
  fold (candidates text).
  induction H as [|c l Hc _ IH]; [reflexivity|].
  cbn [filter]. unfold long_enough at 1.
  apply Z.ltb_ge in Hc. now rewrite Hc.
Qed.

End ProcessDocument.

(** X13.  A document whose text is not blank but has no paragraph longer
    than 20 characters is rejected with "Failed to create text chunks",
    after these calls and no other: the collection of the original texts
    is asked for; unless that call raised, the text is added to it, under
    the identifier made of "fulltext_" and the file name, with its numbers
    of characters and of words; and, when an S3 client is configured, the
    file is put in the bucket under "documents/" and the file name.  No
    embedding is requested and nothing is added to the collection of the
    chunks. *)
Theorem short_document_gives_no_chunks
    (sent_tokenize : str -> list str) (Exc : Type) (str_of_exc : Exc -> str)
    (exc_of_splitter : exn -> Exc) (bytes embedding : Type)
    (extract_text : bytes -> str -> Exc + str) (s3_client : bool)
    (raises : list (call bytes embedding) -> call bytes embedding
              -> option Exc)
    (created_embedding : list (call bytes embedding) -> str -> embedding)
    (file_content : bytes) (filename text : str)
    (log : list (call bytes embedding)) :
  extract_text file_content filename = inr text ->
  strip text <> [] ->
  Forall (fun c => (len c <= 20)%Z) (candidates text) ->
  let stored :=
    match raises log (GetOrCreateCollection (lit "original_texts")) with
    | Some _ => []
    | None =>
        [AddOriginalText (lit "fulltext_" ++ filename) text filename
           (length text) (length (split text))]
    end in
  let uploaded :=
    if s3_client
    then [PutObject (lit "documents/" ++ filename) file_content filename]
    else [] in
  process_document sent_tokenize Exc str_of_exc exc_of_splitter bytes
    embedding extract_text s3_client raises created_embedding
    file_content filename log =
    (error_response (lit "Failed to create text chunks"),
     log ++ GetOrCreateCollection (lit "original_texts") :: stored
         ++ uploaded)
  /\ Forall (fun c => is_chunk_call c = false)
       (GetOrCreateCollection (lit "original_texts") :: stored ++ uploaded).
Proof.
  intros Hext Hne Hshort stored uploaded. subst stored uploaded.
  unfold process_document. rewrite Hext.
  destruct (strip text) eqn:Hs; [easy|]. cbn [truthy negb].
  rewrite (short_candidates_have_no_chunk sent_tokenize 1000 100 text Hshort).
  cbn [truthy negb].
  unfold store_original_text, attempt.
  destruct (raises log (GetOrCreateCollection (lit "original_texts")));
    destruct s3_client; cbn [snd app];
    rewrite <- ?app_assoc; cbn [app];
    (split; [reflexivity|repeat constructor]).
Qed.

Lemma short_document_gives_no_chunks_witness :
  let text := lit "Hello, world." in
  (fun (content : str) (_ : str) => @inr unit str content) text
    (lit "hello.txt") = inr text
  /\ strip text <> []
  /\ Forall (fun c => (len c <= 20)%Z) (candidates text)
  /\ process_document BaseTokenizer.sent_tokenize unit (fun _ => [])
       (fun _ => tt) str unit (fun content _ => inr content) true
       (fun _ _ => None) (fun _ _ => tt) text (lit "hello.txt") [] =
       (error_response (lit "Failed to create text chunks"),
        [GetOrCreateCollection (lit "original_texts");
         AddOriginalText (lit "fulltext_hello.txt") text (lit "hello.txt")
           13 2;
         PutObject (lit "documents/hello.txt") text (lit "hello.txt")]).
Proof.
  intros text.
  assert (H1 : (fun (content : str) (_ : str) => @inr unit str content) text
                 (lit "hello.txt") = inr text) by reflexivity.
  assert (H2 : strip text <> []) by (vm_compute; discriminate).
  assert (H3 : Forall (fun c => (len c <= 20)%Z) (candidates text))
    by (vm_compute; repeat constructor; discriminate).
  split; [exact H1|]. split; [exact H2|]. split; [exact H3|].
  exact (proj1
           (short_document_gives_no_chunks BaseTokenizer.sent_tokenize unit
              (fun _ => []) (fun _ => tt) str unit
              (fun content _ => inr content) true (fun _ _ => None)
              (fun _ _ => tt) text (lit "hello.txt") text [] H1 H2 H3)).
Defined.

(** X14.  When the splitter returns chunks, [process_document] answers
    "success" with [chunks_created] the number of chunks, whatever the
    embedding requests and the additions to the collection do, even if all
    of them raise.  It requests one embedding per chunk, in order, on the
    first 8191 characters of the chunk.  Every addition to the collection
    carries a chunk of the document with its own index, the identifier
    made of the file name and that index, the number of chunks and the
    length of the chunk; the additions are made by increasing index, so no
    chunk is added twice. *)
Theorem stored_chunks_describe_the_document
    (sent_tokenize : str -> list str) (Exc : Type) (str_of_exc : Exc -> str)
    (exc_of_splitter : exn -> Exc) (bytes embedding : Type)
    (extract_text : bytes -> str -> Exc + str) (s3_client : bool)
    (raises : list (call bytes embedding) -> call bytes embedding
              -> option Exc)
    (created_embedding : list (call bytes embedding) -> str -> embedding)
    (file_content : bytes) (filename text : str) (chunks : list str)
    (log : list (call bytes embedding)) :
  extract_text file_content filename = inr text ->
  split_text sent_tokenize 1000 100 text = Ok chunks ->
  chunks <> [] ->
  exists before new,
    process_document sent_tokenize Exc str_of_exc exc_of_splitter bytes
      embedding extract_text s3_client raises created_embedding
      file_content filename log =
      ({| status := lit "success";
          message :=
            lit "Successfully processed " ++ str_of_nat (length chunks)
            ++ lit " chunks";
          chunks_created := length chunks |},
       log ++ before ++ new)
    /\ Forall (fun c => is_chunk_call c = false) before
    /\ embedding_inputs new = map (firstn 8191) chunks
    /\ Forall (describes filename chunks) new
    /\ Sorted.StronglySorted lt (added_indices new).
Proof.
  intros Hext Hsplit Hne. unfold process_document. rewrite Hext.
  destruct (strip text) eqn:Hs.
  { rewrite (blank_text_has_no_chunk sent_tokenize 1000 100 text Hs)
      in Hsplit.
    inversion Hsplit. congruence. }
  cbn [truthy negb]. rewrite Hsplit.
  destruct chunks as [|c0 chunks']; [easy|]. cbn [truthy negb].
  destruct (before_chunks_calls Exc bytes embedding s3_client raises
              file_content text filename log) as (rest & E & H).
  cbv zeta in E. rewrite E.
  destruct (store_chunks_calls Exc bytes embedding raises created_embedding
              filename (c0 :: chunks') []
              (log ++ GetOrCreateCollection (lit "original_texts") :: rest))
    as (new & En & Hin & Hd & _ & Hsorted).
  cbn [app length] in En, Hd.
  exists (GetOrCreateCollection (lit "original_texts") :: rest), new.
  unfold enumerate. cbn [length]. rewrite En, <- app_assoc.
  split; [reflexivity|]. now repeat split.
Qed.

Lemma stored_chunks_describe_the_document_witness :
  let text := lit "Cats purr all day long. Dogs bark loudly at night." in
  let chunks := [text] in
  (fun (content : str) (_ : str) => @inr unit str content) text
    (lit "pets.txt") = inr text
  /\ split_text BaseTokenizer.sent_tokenize 1000 100 text = Ok chunks
  /\ chunks <> []
  /\ exists before new,
       process_document BaseTokenizer.sent_tokenize unit (fun _ => [])
         (fun _ => tt) str unit (fun content _ => inr content) false
         (fun _ _ => Some tt) (fun _ _ => tt) text (lit "pets.txt") [] =
         ({| status := lit "success";
             message :=
               lit "Successfully processed " ++ str_of_nat (length chunks)
               ++ lit " chunks";
             chunks_created := length chunks |},
          [] ++ before ++ new)
       /\ Forall (fun c => is_chunk_call c = false) before
       /\ embedding_inputs new = map (firstn 8191) chunks
       /\ Forall (describes (lit "pets.txt") chunks) new
       /\ Sorted.StronglySorted lt (added_indices new).
Proof.
  intros text chunks.
  assert (H1 : (fun (content : str) (_ : str) => @inr unit str content) text
                 (lit "pets.txt") = inr text) by reflexivity.
  assert (H2 : split_text BaseTokenizer.sent_tokenize 1000 100 text =
               Ok chunks) by (vm_compute; reflexivity).
  assert (H3 : chunks <> []) by discriminate.
  split; [exact H1|]. split; [exact H2|]. split; [exact H3|].
  exact (stored_chunks_describe_the_document BaseTokenizer.sent_tokenize unit
           (fun _ => []) (fun _ => tt) str unit (fun content _ => inr content)
           false (fun _ _ => Some tt) (fun _ _ => tt) text (lit "pets.txt")
           text chunks [] H1 H2 H3).
Defined.

(** * Properties of [_init_chromadb] *)

(** X15.  [_init_chromadb] makes at most three attempts and waits at most
    twice, never after the third failure.  When it returns, the collection
    was obtained from the client that is installed; this client is the
    HTTP client of the first attempt that connected, after one wait per
    failed attempt before it, or the in-memory client, after two waits,
    when none of the three attempts connected. *)
Theorem init_chromadb_installs_one_client (server : nat -> outcome)
    (memory : fallback) :
  let '(escaped, st) := _init_chromadb server memory in
  sleeps st <= 2
  /\ (escaped = false ->
      exists c,
        chroma_client st = Some c /\ collection st = Some c
        /\ match c with
           | HttpClient k =>
               k < 3 /\ server k = Connected /\ sleeps st = k
               /\ forall j, j < k -> server j <> Connected
           | InMemoryClient =>
               sleeps st = 2
               /\ forall j, j < 3 -> server j <> Connected
           end).
Proof.
  unfold _init_chromadb. cbn [seq connect_loop]. unfold connect.
  assert (H3 : forall (P : nat -> Prop), P 0 -> P 1 -> P 2 ->
               forall j, j < 3 -> P j).
  { intros P P0 P1 P2 j Hj.
    destruct j as [|[|[|j]]]; [assumption..|lia]. }
  assert (H2 : forall (P : nat -> Prop), P 0 -> P 1 ->
               forall j, j < 2 -> P j).
  { intros P P0 P1 j Hj. destruct j as [|[|j]]; [assumption..|lia]. }
  assert (H1 : forall (P : nat -> Prop), P 0 -> forall j, j < 1 -> P j).
  { intros P P0 j Hj. destruct j as [|j]; [assumption|lia]. }
  destruct (server 0) eqn:E0; cbn;
    try (split; [lia|]; intros _; eexists; repeat split; eauto; lia);
    (destruct (server 1) eqn:E1; cbn;
     try (split; [lia|]; intros _; eexists; repeat split; eauto;
          apply H1; congruence);
     (destruct (server 2) eqn:E2; cbn;
      try (split; [lia|]; intros _; eexists; repeat split; eauto;
           apply H2; congruence);
      (destruct memory; cbn; split; try lia; intros He;
       try discriminate;
       eexists; repeat split; eauto; apply H3; congruence))).
Qed.

Lemma init_chromadb_installs_one_client_witness :
  let server := fun k => match k with 2 => Connected | _ => HeartbeatRaises end in
  fst (_init_chromadb server MemoryReady) = false
  /\ exists c,
       chroma_client (snd (_init_chromadb server MemoryReady)) = Some c
       /\ collection (snd (_init_chromadb server MemoryReady)) = Some c
       /\ c = HttpClient 2
       /\ sleeps (snd (_init_chromadb server MemoryReady)) = 2.
Proof.
  intros server.
  assert (H : fst (_init_chromadb server MemoryReady) = false) by reflexivity.
  split; [exact H|].
  pose proof (init_chromadb_installs_one_client server MemoryReady) as G.
  destruct (_init_chromadb server MemoryReady) as [escaped st] eqn:E.
  cbn [fst snd] in *. destruct G as [_ G].
  destruct (G H) as (c & Hc & Hcol & Hm).
  exists c. split; [exact Hc|]. split; [exact Hcol|].
  vm_compute in E. inversion E; subst. cbn in Hc. inversion Hc; subst.
  split; reflexivity.
Defined.
